(** * Document synchronisation engine of the Meilisearch plugin

    A shallow embedding of the synchronisation core of the plugin:
    the search service ([MeiliSearchService]), the index registry
    ([getIndexesWithFetchersStep]), the single-index sync
    ([syncDocumentsStep]), the bulk orchestrator
    ([bulkSyncDocumentsStep]) and the batch driver
    ([meilisearchIndexSyncJob]).

    The search engine, the source catalog, custom fetchers and custom
    transformers are external capabilities.  They are modelled as functions
    over an abstract world state [W]; every invocation is recorded in the
    list of calls of the run, so that statements such as "no delete is
    issued" can be read off a run. Logging and wall-clock measurements
    ([processingTime]) are left out. *)

From Stdlib Require Import ZArith Lia Sorted.
From stdpp Require Import base option list strings gmap fin_maps pretty.

Open Scope string_scope.
Open Scope list_scope.

(** ** JavaScript values *)

(** The primitive values a document field, an identity or a filter can hold.
    Numbers are the integers; NaN and fractions are not represented. *)
Inductive value : Type :=
  | VUndefined
  | VNull
  | VBool (b : bool)
  | VNum (n : Z)
  | VStr (s : string).

#[global] Instance value_eq_dec : EqDecision value.
Proof. solve_decision. Defined.

(** [Boolean(v)]. *)
Definition truthy (v : value) : bool :=
  match v with
  | VUndefined | VNull => false
  | VBool b => b
  | VNum n => negb (n =? 0)%Z
  | VStr s => negb (String.eqb s "")
  end.

(** [a || b]. *)
Definition js_or (a b : value) : value := if truthy a then a else b.

(** [`${v}`]. *)
Definition to_String (v : value) : string :=
  match v with
  | VUndefined => "undefined"
  | VNull => "null"
  | VBool true => "true"
  | VBool false => "false"
  | VNum n => pretty n
  | VStr s => s
  end.

(** [xs.join(sep)] on strings. *)
Fixpoint join (sep : string) (xs : list string) : string :=
  match xs with
  | [] => ""
  | [x] => x
  | x :: rest => x +:+ sep +:+ join sep rest
  end.

(** [ids.includes(id)]: SameValueZero, which on the values above is
    equality. *)
Definition includes (ids : list value) (id : value) : bool :=
  bool_decide (id ∈ ids).

(** A truthiness test on an optional string ([language ? .. : ..]). *)
Definition given (language : option string) : bool :=
  match language with
  | Some l => negb (String.eqb l "")
  | None => false
  end.

(** A truthiness test on an optional number ([if (limit)]). *)
Definition given_number (n : option Z) : bool :=
  match n with
  | Some z => negb (z =? 0)%Z
  | None => false
  end.

(** ** Documents *)

(** A document is a JavaScript object; a missing property reads as
    [undefined]. *)
Abbreviation Doc := (gmap string value).

Definition prop (doc : Doc) (key : string) : value :=
  default VUndefined (doc !! key).

(** ** Plugin types (types/meilisearch.ts) *)

Inductive I18nStrategy : Type := separate_index | field_suffix.

#[global] Instance I18nStrategy_eq_dec : EqDecision I18nStrategy.
Proof. solve_decision. Defined.

Record I18nConfig : Type := {
  strategy : I18nStrategy;
  languages : list string;
  defaultLanguage : string;
}.

Record TransformOptions : Type := {
  to_i18n : option I18nConfig;
  to_language : option string;
}.

Record DocumentFetcherOptions : Type := {
  fo_filters : option (gmap string value);
  fo_limit : option Z;
  fo_offset : option Z;
  fo_language : option string;
}.

(** The argument of [queryService.graph]. *)
Record GraphQuery : Type := {
  entity : string;
  gq_fields : list string;
  gq_take : option Z;
  gq_skip : option Z;
  gq_filters : gmap string value;
}.

(** ** Workflow inputs and results (workflows/steps) *)

Record SyncDocumentsStepInput : Type := {
  indexKey : string;
  filters : option (gmap string value);
  limit : option Z;
  offset : option Z;
  language : option string;
}.

Record SyncDocumentsStepResult : Type := {
  documents : list Doc;
  added : nat;
  deleted : nat;
}.

(** A processable index descriptor. *)
Record IndexWithFetcher : Type := {
  iwf_indexKey : string;
  iwf_type : option string;
  iwf_language : option string;
}.

Record IndexSyncResult : Type := {
  isr_indexKey : string;
  isr_language : option string;
  success : bool;
  isr_documents : list Doc;
  isr_added : nat;
  isr_deleted : nat;
  error : option string;
}.

Record BulkSyncDocumentsStepResult : Type := {
  results : list IndexSyncResult;
  totalProcessed : nat;
  totalSuccessful : nat;
  totalFailed : nat;
  totalDocuments : nat;
  totalAdded : nat;
  totalDeleted : nat;
}.

Record IndexSyncJobData : Type := {
  jd_indexKey : string;
  jd_filters : option (gmap string value);
  jd_limit : option Z;
  jd_offset : option Z;
  jd_batchSize : option Z;
}.

(** How a run of the batch driver ends.  The job returns nothing; the two
    numbers of [Completed] are the ones its closing log line reports.
    [OutOfFuel] is the model's mark for a loop cut short. *)
Inductive JobEnd : Type :=
  | Skipped
  | Completed (indexed removed : nat)
  | OutOfFuel.

(** ** Runs: outcomes, worlds and calls *)

(** What a [catch] clause may receive: an [Error] with its message, or any
    other thrown value. *)
Inductive thrown : Type :=
  | ErrorObject (message : string)
  | NonError.

Inductive outcome (A : Type) : Type :=
  | Returned (a : A)
  | Threw (e : thrown).
Arguments Returned {A} a.
Arguments Threw {A} e.

(** The calls a run makes to its external collaborators. *)
Inductive Call : Type :=
  | Fetch (indexKey : string) (options : DocumentFetcherOptions)
  | Graph (query : GraphQuery)
  | Transform (indexKey : string) (doc : Doc)
  | Search (physicalKey : string) (query : string) (filter : string)
  | AddDocuments (physicalKey : string) (documents : list Doc)
  | DeleteDocuments (physicalKey : string) (documentIds : list value)
  | RunSyncWorkflow (input : SyncDocumentsStepInput).

Definition is_delete (c : Call) : bool :=
  match c with DeleteDocuments _ _ => true | _ => false end.

Definition is_workflow (c : Call) : bool :=
  match c with RunSyncWorkflow _ => true | _ => false end.

(** The inputs of the workflow runs among calls, in order. *)
Definition startedBy (cs : list Call) : list SyncDocumentsStepInput :=
  omap (λ c, match c with RunSyncWorkflow input => Some input | _ => None end) cs.

Record Run (W A : Type) : Type := mkRun {
  result : outcome A;
  world : W;
  calls : list Call;
}.
Arguments mkRun {W A} result world calls.
Arguments result {W A} r.
Arguments world {W A} r.
Arguments calls {W A} r.

(** An asynchronous computation: from a world to a run. *)
Definition IO (W A : Type) : Type := W → Run W A.

Definition ret {W A} (a : A) : IO W A := λ w, mkRun (Returned a) w [].

Definition bind {W A B} (m : IO W A) (k : A → IO W B) : IO W B := λ w,
  let r := m w in
  match result r with
  | Returned a =>
      let r' := k a (world r) in
      mkRun (result r') (world r') (calls r ++ calls r')
  | Threw e => mkRun (Threw e) (world r) (calls r)
  end.

(** [try { body } catch (e) { handler e }]. *)
Definition try_catch {W A} (body : IO W A) (handler : thrown → IO W A) : IO W A := λ w,
  let r := body w in
  match result r with
  | Returned _ => r
  | Threw e =>
      let r' := handler e (world r) in
      mkRun (result r') (world r') (calls r ++ calls r')
  end.

(** One call to an external capability, recorded. *)
Definition invoke {W A} (c : Call) (capability : W → outcome A * W) : IO W A := λ w,
  let '(o, w') := capability w in mkRun o w' [c].

Notation "x <- m ;; k" := (bind m (λ x, k))
  (at level 100, m at next level, right associativity).
Notation "m ;;; k" := (bind m (λ _, k))
  (at level 100, right associativity).

(** [await Promise.all(xs.map(f))], the calls taken in list order and
    stopping at the first one that throws. A callback that is an [async]
    function is started for every element all the same; of such calls the
    run keeps those up to the first failure. *)
Fixpoint for_each {W A B} (f : A → IO W B) (xs : list A) : IO W (list B) :=
  match xs with
  | [] => ret []
  | x :: rest => y <- f x ;; ys <- for_each f rest ;; ret (y :: ys)
  end.

Section Service.
Context {W : Type}.

(** [DocumentFetcher]: [(container, options) => Promise<T[]>]. *)
Definition DocumentFetcher : Type :=
  DocumentFetcherOptions → W → outcome (list Doc) * W.

(** [DocumentTransformer]: [(document, container, defaultTransformer,
    options)]; the boolean tells whether the default transformer was
    passed as third argument. *)
Definition DocumentTransformer : Type :=
  Doc → bool → TransformOptions → W → outcome Doc * W.

Record IndexConfig : Type := {
  type : option string;
  enabled : option bool;
  fields : option (list string);
  transformer : option DocumentTransformer;
  fetcher : option DocumentFetcher;
}.

(** [settings] lists the entries of the settings object in the order
    [Object.entries] enumerates them; an absent object is the empty list. *)
Record MeilisearchPluginOptions : Type := {
  settings : list (string * IndexConfig);
  i18n : option I18nConfig;
}.

(** The part of the search engine client the synchronisation uses:
    [client.index(key).search(query, {filter})],
    [.addDocuments(docs, {primaryKey: 'id'})], [.deleteDocuments(ids)]. *)
Record MeiliSearch : Type := {
  index_search : string → string → string → W → outcome (list Doc) * W;
  index_addDocuments : string → list Doc → W → outcome unit * W;
  index_deleteDocuments : string → list value → W → outcome unit * W;
}.

(** [container.resolve('query')]. *)
Record Container : Type := {
  graph : GraphQuery → W → outcome (list Doc) * W;
}.

(** The service object.  [transformProduct] is imported from
    utils/transformer, which is not part of the sources at hand: it is
    taken as a parameter of the service. *)
Record MeiliSearchService : Type := {
  config_ : MeilisearchPluginOptions;
  client_ : MeiliSearch;
  container_ : Container;
  transformProduct : Doc → TransformOptions → outcome Doc;
}.

(** Modelled from the spec: [SearchUtils.indexTypes.PRODUCTS], a constant
    of the framework, the built-in "products" category. *)
Definition PRODUCTS : string := "products".

Fixpoint assoc {A} (key : string) (entries : list (string * A)) : option A :=
  match entries with
  | [] => None
  | (k, v) :: rest => if String.eqb k key then Some v else assoc key rest
  end.

(** [this.config_.settings?.[indexKey]]. *)
Definition indexConfigOf (this : MeiliSearchService) (indexKey : string)
  : option IndexConfig :=
  assoc indexKey (settings (config_ this)).

(** [config.enabled === false]. *)
Definition disabled (indexConfig : IndexConfig) : bool :=
  bool_decide (enabled indexConfig = Some false).

Definition getLanguageIndexKey (this : MeiliSearchService)
    (baseKey : string) (language : option string) : string :=
  match i18n (config_ this), language with
  | Some i18n, Some lang =>
      if negb (bool_decide (strategy i18n = separate_index)) || negb (given language)
      then baseKey
      else baseKey +:+ "_" +:+ lang
  | _, _ => baseKey
  end.

(** [fields.add(field)] on a [Set] kept in insertion order. *)
Definition set_add (fields : list string) (field : string) : list string :=
  if bool_decide (field ∈ fields) then fields else fields ++ [field].

Definition getFieldsForType (this : MeiliSearchService) (type_ : string)
  : list string :=
  let selected :=
    List.filter
      (λ config, bool_decide (type config = Some type_) && negb (disabled config))
      (map snd (settings (config_ this))) in
  let fields :=
    fold_left
      (λ seen config,
         match fields config with
         | Some fs => fold_left set_add fs seen
         | None => seen
         end)
      selected [] in
  if (length fields =? 0)%nat then ["*"] else fields.

(** The query of the built-in products fetcher.  The object literal
    [{status: 'published', ...options.filters}] lets a caller's key win. *)
Definition productsQuery (this : MeiliSearchService)
    (options : DocumentFetcherOptions) : GraphQuery :=
  {| entity := "product";
     gq_fields := getFieldsForType this PRODUCTS;
     gq_take := fo_limit options;
     gq_skip := fo_offset options;
     gq_filters :=
       default ∅ (fo_filters options) ∪ {[ "status" := VStr "published" ]} |}.

Definition getDocumentFetcher (this : MeiliSearchService) (indexKey : string)
  : option (DocumentFetcherOptions → IO W (list Doc)) :=
  match indexConfigOf this indexKey with
  | None => None
  | Some indexConfig =>
      if disabled indexConfig then None
      else
        match fetcher indexConfig with
        | Some custom =>
            Some (λ options, invoke (Fetch indexKey options) (custom options))
        | None =>
            if bool_decide (type indexConfig = Some PRODUCTS) then
              Some (λ options,
                      let query := productsQuery this options in
                      invoke (Graph query) (graph (container_ this) query))
            else None
        end
  end.

Definition fetchDocuments (this : MeiliSearchService) (indexKey : string)
    (options : DocumentFetcherOptions) : IO W (list Doc) :=
  match getDocumentFetcher this indexKey with
  | None => ret []
  | Some fetcher => fetcher options
  end.

Definition getTransformedDocuments (this : MeiliSearchService)
    (indexKey : string) (documents : list Doc) (options : TransformOptions)
  : IO W (list Doc) :=
  if (length documents =? 0)%nat then ret []
  else
    let indexConfig := indexConfigOf this indexKey in
    let isProducts :=
      bool_decide (indexConfig ≫= type = Some PRODUCTS) in
    match indexConfig ≫= transformer with
    | Some custom =>
        for_each
          (λ doc, invoke (Transform indexKey doc) (custom doc isProducts options))
          documents
    | None =>
        if isProducts then
          for_each
            (λ doc, invoke (Transform indexKey doc)
                      (λ w, (transformProduct this doc options, w)))
            documents
        else ret documents
    end.

(** [language || i18n.defaultLanguage]. *)
Definition languageOr (language : option string) (defaultLanguage : string)
  : option string :=
  if given language then language else Some defaultLanguage.

Definition addDocuments (this : MeiliSearchService) (indexKey : string)
    (documents : list Doc) (language : option string) : IO W unit :=
  let i18nOptions :=
    {| to_i18n := i18n (config_ this); to_language := language |} in
  match i18n (config_ this) with
  | Some i18n =>
      if bool_decide (strategy i18n = separate_index) then
        let langIndexKey :=
          getLanguageIndexKey this indexKey
            (languageOr language (defaultLanguage i18n)) in
        transformedDocuments <-
          getTransformedDocuments this indexKey documents i18nOptions ;;
        invoke (AddDocuments langIndexKey transformedDocuments)
          (index_addDocuments (client_ this) langIndexKey transformedDocuments)
      else
        transformedDocuments <-
          getTransformedDocuments this indexKey documents i18nOptions ;;
        invoke (AddDocuments indexKey transformedDocuments)
          (index_addDocuments (client_ this) indexKey transformedDocuments)
  | None =>
      transformedDocuments <-
        getTransformedDocuments this indexKey documents i18nOptions ;;
      invoke (AddDocuments indexKey transformedDocuments)
        (index_addDocuments (client_ this) indexKey transformedDocuments)
  end.

Definition deleteDocuments (this : MeiliSearchService) (indexKey : string)
    (documentIds : list value) (language : option string) : IO W unit :=
  let actualIndexKey := getLanguageIndexKey this indexKey language in
  invoke (DeleteDocuments actualIndexKey documentIds)
    (index_deleteDocuments (client_ this) actualIndexKey documentIds).

(** [search(indexKey, query, {filter, language})]: of the options only
    [filter] reaches the client ([attributesToRetrieve] is not among the
    keys the service forwards). *)
Definition search (this : MeiliSearchService) (indexKey query filter : string)
    (language : option string) : IO W (list Doc) :=
  let actualIndexKey := getLanguageIndexKey this indexKey language in
  invoke (Search actualIndexKey query filter)
    (index_search (client_ this) actualIndexKey query filter).
End Service.

Arguments IndexConfig : clear implicits.
Arguments MeilisearchPluginOptions : clear implicits.
Arguments MeiliSearch : clear implicits.
Arguments Container : clear implicits.
Arguments MeiliSearchService : clear implicits.

(** The double-quote character, as a string. *)
Definition quote : string := String (Ascii.ascii_of_nat 34) EmptyString.

Section Steps.
Context {W : Type}.
Implicit Types (this : MeiliSearchService W).

(** [documents.map((doc) => doc.id || doc._id).filter(Boolean)]. *)
Definition documentIdsOf (documents : list Doc) : list value :=
  List.filter truthy (map (λ doc, js_or (prop doc "id") (prop doc "_id")) documents).

(** [`id IN [${documentIds.map((id) => `"${id}"`).join(',')}]`]. *)
Definition membershipFilter (documentIds : list value) : string :=
  "id IN [" +:+
  join "," (map (λ id, quote +:+ to_String id +:+ quote) documentIds) +:+
  "]".

(** [existingDocumentIds.filter((id) => !documentIds.includes(id))]. *)
Definition documentsToDeleteOf (existingDocumentIds documentIds : list value)
  : list value :=
  List.filter (λ id, negb (includes documentIds id)) existingDocumentIds.

Definition noDocuments : SyncDocumentsStepResult :=
  {| documents := []; added := 0; deleted := 0 |}.

(** steps/sync-documents.ts *)
Definition syncDocumentsStep this (input : SyncDocumentsStepInput)
  : IO W SyncDocumentsStepResult :=
  match indexConfigOf this (indexKey input) with
  | None => ret noDocuments
  | Some indexConfig =>
      if disabled indexConfig then ret noDocuments
      else
        documents <-
          fetchDocuments this (indexKey input)
            {| fo_filters := filters input; fo_limit := limit input;
               fo_offset := offset input; fo_language := language input |} ;;
        if (length documents =? 0)%nat then ret noDocuments
        else
          let documentIds := documentIdsOf documents in
          existingDocumentIds <-
            (if (0 <? length documentIds)%nat then
               try_catch
                 (hits <-
                    search this (indexKey input) ""
                      (membershipFilter documentIds) (language input) ;;
                  ret (map (λ hit, prop hit "id") hits))
                 (λ _, ret [])
             else ret []) ;;
          let documentsToDelete :=
            documentsToDeleteOf existingDocumentIds documentIds in
          addDocuments this (indexKey input) documents (language input) ;;;
          (if (0 <? length documentsToDelete)%nat then
             deleteDocuments this (indexKey input) documentsToDelete
               (language input)
           else ret tt) ;;;
          ret {| documents := documents;
                 added := length documents;
                 deleted := length documentsToDelete |}
  end.

(** steps/get-indexes-with-fetchers.ts: the loop pushes onto [indexes]. *)
Definition getIndexesWithFetchersStep this (language : option string)
  : list IndexWithFetcher :=
  let config := config_ this in
  fold_left
    (λ indexes '(indexKey, indexConfig),
       if disabled indexConfig then indexes
       else if negb (bool_decide (is_Some (fetcher indexConfig))) then indexes
       else
         let single :=
           indexes ++ [ {| iwf_indexKey := indexKey;
                           iwf_type := type indexConfig;
                           iwf_language := language |} ] in
         match i18n config with
         | Some i18n =>
             if bool_decide (strategy i18n = separate_index)
                && (0 <? length (languages i18n))%nat
             then
               let targetLanguages :=
                 match language with
                 | Some lang => if given language then [lang] else languages i18n
                 | None => languages i18n
                 end in
               fold_left
                 (λ indexes lang,
                    indexes ++ [ {| iwf_indexKey := indexKey;
                                    iwf_type := type indexConfig;
                                    iwf_language := Some lang |} ])
                 targetLanguages indexes
             else single
         | None => single
         end)
    (settings config) [].

(** steps/filter-indexes.ts *)
Definition filterIndexesStep (indexes : list IndexWithFetcher)
    (indexKeys : option (list string)) : list IndexWithFetcher :=
  match indexKeys with
  | Some keys =>
      List.filter (λ index, bool_decide (iwf_indexKey index ∈ keys)) indexes
  | None => indexes
  end.

(** [error instanceof Error ? error.message : 'Unknown error']. *)
Definition errorMessageOf (e : thrown) : string :=
  match e with
  | ErrorObject message => message
  | NonError => "Unknown error"
  end.

(** steps/bulk-sync-documents.ts: the callback mapped over [indexes]. *)
Definition syncIndex this (filters : option (gmap string value))
    (limit offset : option Z) (indexInfo : IndexWithFetcher)
  : IO W IndexSyncResult :=
  let settled (documents : list Doc) (added deleted : nat) :=
    {| isr_indexKey := iwf_indexKey indexInfo;
       isr_language := iwf_language indexInfo;
       success := true;
       isr_documents := documents;
       isr_added := added;
       isr_deleted := deleted;
       error := None |} in
  try_catch
    (match indexConfigOf this (iwf_indexKey indexInfo) with
     | None => ret (settled [] 0 0)
     | Some indexConfig =>
         if disabled indexConfig then ret (settled [] 0 0)
         else
           documents <-
             fetchDocuments this (iwf_indexKey indexInfo)
               {| fo_filters := filters; fo_limit := limit;
                  fo_offset := offset;
                  fo_language := iwf_language indexInfo |} ;;
           if (length documents =? 0)%nat then ret (settled [] 0 0)
           else
             let documentIds := documentIdsOf documents in
             existingDocumentIds <-
               (if (0 <? length documentIds)%nat then
                  try_catch
                    (hits <-
                       search this (iwf_indexKey indexInfo) ""
                         (membershipFilter documentIds)
                         (iwf_language indexInfo) ;;
                     ret (map (λ hit, prop hit "id") hits))
                    (λ _, ret [])
                else ret []) ;;
             let documentsToDelete :=
               documentsToDeleteOf existingDocumentIds documentIds in
             addDocuments this (iwf_indexKey indexInfo) documents
               (iwf_language indexInfo) ;;;
             (if (0 <? length documentsToDelete)%nat then
                deleteDocuments this (iwf_indexKey indexInfo)
                  documentsToDelete (iwf_language indexInfo)
              else ret tt) ;;;
             ret (settled documents (length documents)
                    (length documentsToDelete))
     end)
    (λ e,
       ret {| isr_indexKey := iwf_indexKey indexInfo;
              isr_language := iwf_language indexInfo;
              success := false;
              isr_documents := [];
              isr_added := 0;
              isr_deleted := 0;
              error := Some (errorMessageOf e) |}).

(** The callback of [indexResults.forEach], on the running totals. *)
Definition tally (totals : BulkSyncDocumentsStepResult) (r : IndexSyncResult)
  : BulkSyncDocumentsStepResult :=
  {| results := results totals;
     totalProcessed := totalProcessed totals;
     totalSuccessful :=
       if success r then S (totalSuccessful totals) else totalSuccessful totals;
     totalFailed :=
       if success r then totalFailed totals else S (totalFailed totals);
     totalDocuments := totalDocuments totals + length (isr_documents r);
     totalAdded := totalAdded totals + isr_added r;
     totalDeleted := totalDeleted totals + isr_deleted r |}.

(** The step response: the entries and the totals over them. *)
Definition totalsOf (indexes : list IndexWithFetcher)
    (indexResults : list IndexSyncResult) : BulkSyncDocumentsStepResult :=
  fold_left tally indexResults
    {| results := indexResults;
       totalProcessed := length indexes;
       totalSuccessful := 0; totalFailed := 0; totalDocuments := 0;
       totalAdded := 0; totalDeleted := 0 |}.

(** The fan-out [Promise.all(indexes.map(...))] starts every callback and
    lets them take turns at their [await]s. It is taken here in one of its
    schedules, one descriptor's calls after the other's, in list order.
    What a callback returns for its descriptor is the same in every
    schedule only where the collaborators' answers do not depend on what
    the other callbacks did. *)
Definition bulkSyncDocumentsStep this (indexes : list IndexWithFetcher)
    (filters : option (gmap string value)) (limit offset : option Z)
  : IO W BulkSyncDocumentsStepResult :=
  indexResults <- for_each (syncIndex this filters limit offset) indexes ;;
  ret (totalsOf indexes indexResults).

(** workflows/bulk-sync-documents.ts *)
Definition bulkSyncDocumentsWorkflow this (filters : option (gmap string value))
    (limit offset : option Z) (language : option string)
    (indexKeys : option (list string)) : IO W BulkSyncDocumentsStepResult :=
  let indexes := getIndexesWithFetchersStep this language in
  let filteredIndexes := filterIndexesStep indexes indexKeys in
  bulkSyncDocumentsStep this filteredIndexes filters limit offset.
End Steps.

Section Job.
Context {W : Type}.
Implicit Types (this : MeiliSearchService W).

(** The workflow engine is not part of this repository. When the step of a
    workflow throws [e], [run] rejects with the engine's own rendering of
    it, [rejection e], which need not be [e] nor an [Error]. *)
Context (rejection : thrown → thrown).

(** [syncDocumentsWorkflow(container).run({input})]: the workflow engine
    runs the one step of workflows/sync-documents.ts; it hands on what the
    step returns and rejects when the step throws. The run is recorded as a
    call of its own. *)
Definition syncDocumentsWorkflow this (input : SyncDocumentsStepInput)
  : IO W SyncDocumentsStepResult :=
  λ w,
    let r := syncDocumentsStep this input w in
    mkRun
      match result r with
      | Returned response => Returned response
      | Threw e => Threw (rejection e)
      end
      (world r) (RunSyncWorkflow input :: calls r).

(** [n || d] on an optional number. *)
Definition numberOr (n : option Z) (d : Z) : Z :=
  match n with
  | Some z => if (z =? 0)%Z then d else z
  | None => d
  end.

(** The [while (hasMore)] loop of the batch driver, with a bound on the
    number of iterations. *)
Fixpoint batchLoop this (fuel : nat) (indexKey : string)
    (filters : option (gmap string value)) (batchSize currentOffset : Z)
    (totalAdded totalDeleted : nat) : IO W JobEnd :=
  match fuel with
  | O => ret OutOfFuel
  | S fuel' =>
      r <-
        syncDocumentsWorkflow this
          {| indexKey := indexKey; filters := filters;
             limit := Some batchSize; offset := Some currentOffset;
             language := None |} ;;
      let totalAdded := totalAdded + added r in
      let totalDeleted := totalDeleted + deleted r in
      if (Z.of_nat (length (documents r)) <? batchSize)%Z
      then ret (Completed totalAdded totalDeleted)
      else
        batchLoop this fuel' indexKey filters batchSize
          (currentOffset + batchSize)%Z totalAdded totalDeleted
  end.

(** utils/index-sync-job-template.ts *)
Definition meilisearchIndexSyncJob this (fuel : nat)
    (data : option IndexSyncJobData) : IO W JobEnd :=
  match data with
  | None => ret Skipped
  | Some data =>
      if String.eqb (jd_indexKey data) "" then ret Skipped
      else
        let batchSize := default 100%Z (jd_batchSize data) in
        if given_number (jd_limit data) then
          r <-
            syncDocumentsWorkflow this
              {| indexKey := jd_indexKey data; filters := jd_filters data;
                 limit := jd_limit data; offset := jd_offset data;
                 language := None |} ;;
          ret (Completed (added r) (deleted r))
        else
          batchLoop this fuel (jd_indexKey data) (jd_filters data) batchSize
            (numberOr (jd_offset data) 0) 0 0
  end.

(** The single-index syncs a run of the driver started, in order. *)
Definition workflowRuns {A} (r : Run W A) : list SyncDocumentsStepInput :=
  startedBy (calls r).
End Job.

(** ** Notions used to state the properties *)

(** The physical index a call to the search engine addresses. *)
Definition addressed (c : Call) : option string :=
  match c with
  | Search physicalKey _ _ => Some physicalKey
  | AddDocuments physicalKey _ => Some physicalKey
  | DeleteDocuments physicalKey _ => Some physicalKey
  | _ => None
  end.

(** A string without the separator of language-suffixed index keys. *)
Fixpoint underscore_free (s : string) : bool :=
  match s with
  | EmptyString => true
  | String c rest =>
      negb (Ascii.eqb c (Ascii.ascii_of_nat 95)) && underscore_free rest
  end.

(** ** The order of the properties of an object *)

(** The value of a decimal digit. *)
Definition digitOf (c : Ascii.ascii) : option N :=
  let code := Ascii.N_of_ascii c in
  if (48 <=? code)%N && (code <=? 57)%N then Some (code - 48)%N else None.

Fixpoint numeralOf (s : string) (acc : N) : option N :=
  match s with
  | EmptyString => Some acc
  | String c rest =>
      match digitOf c with
      | Some d => numeralOf rest (10 * acc + d)%N
      | None => None
      end
  end.

(** A property key that is an array index: the canonical decimal numeral,
    without a leading zero, of an integer from 0 to 2^32 - 2. *)
Definition arrayIndex (key : string) : option N :=
  match key with
  | EmptyString => None
  | String c rest =>
      if Ascii.eqb c (Ascii.ascii_of_nat 48) && negb (String.eqb rest "")
      then None
      else
        match numeralOf key 0 with
        | Some n => if (n <? 4294967295)%N then Some n else None
        | None => None
        end
  end.

Definition indexValue {A} (entry : string * A) : N :=
  default 0%N (arrayIndex entry.1).

(** Insertion of an entry among entries in ascending order of their
    indices. *)
Fixpoint placed {A} (entry : string * A) (sorted : list (string * A))
  : list (string * A) :=
  match sorted with
  | [] => [entry]
  | first :: rest =>
      if (indexValue entry <? indexValue first)%N then entry :: sorted
      else first :: placed entry rest
  end.

Definition ascending {A} (entries : list (string * A)) : list (string * A) :=
  foldr placed [] entries.

Definition indexed {A} (written : list (string * A)) : list (string * A) :=
  List.filter (λ entry, bool_decide (is_Some (arrayIndex entry.1))) written.

Definition named {A} (written : list (string * A)) : list (string * A) :=
  List.filter (λ entry, negb (bool_decide (is_Some (arrayIndex entry.1))))
    written.

(** [Object.entries(o)] for an object whose properties were created in the
    order [written], one per key: the language lists the keys that are
    array indices first, in ascending numeric order, and then the other
    keys in the order of their creation. *)
Definition Object_entries {A} (written : list (string * A))
  : list (string * A) :=
  ascending (indexed written) ++ named written.

Section Notions.
Context {W : Type}.
Implicit Types (this : MeiliSearchService W).

(** The physical index key of a descriptor. *)
Definition physicalKeyOf this (index : IndexWithFetcher) : string :=
  getLanguageIndexKey this (iwf_indexKey index) (iwf_language index).

(** The settings object has one entry per key. *)
Definition distinct_keys this : Prop :=
  NoDup (map fst (settings (config_ this))).

(** The options the sync steps hand to the fetcher of a descriptor. *)
Definition fetchOptions (filters : option (gmap string value))
    (limit offset : option Z) (language : option string)
  : DocumentFetcherOptions :=
  {| fo_filters := filters; fo_limit := limit; fo_offset := offset;
     fo_language := language |}.

(** The probe for the identities [ids] is honest: whenever the engine
    answers it, in whatever index and state, every hit carries an identity
    of [ids]. *)
Definition honest_probe this (ids : list value) : Prop :=
  ∀ physicalKey w hits w',
    index_search (client_ this) physicalKey "" (membershipFilter ids) w
      = (Returned hits, w') →
    Forall (λ hit, prop hit "id" ∈ ids) hits.

(** Every probe that a sync of [indexKey] with the fetch window [options]
    can make is honest. *)
Definition honest_probes this (indexKey : string)
    (options : DocumentFetcherOptions) : Prop :=
  ∀ w documents,
    result (fetchDocuments this indexKey options w) = Returned documents →
    honest_probe this (documentIdsOf documents).

(** Writes succeed: [addDocuments] returns, whatever it is given. *)
Definition writes_succeed this : Prop :=
  ∀ indexKey documents language w,
    result (addDocuments this indexKey documents language w) = Returned tt.

(** Deletes succeed. *)
Definition deletes_succeed this : Prop :=
  ∀ indexKey ids language w,
    result (deleteDocuments this indexKey ids language w) = Returned tt.

(** The registry as the specification words it: drop the disabled and the
    fetcher-less entries, then expand per language or pass the caller's
    language through. A language counts as requested when it is a
    non-empty string. *)
Definition survives (entry : string * IndexConfig W) : bool :=
  negb (disabled (snd entry)) && bool_decide (is_Some (fetcher (snd entry))).

Definition expandsPerLanguage this : bool :=
  match i18n (config_ this) with
  | Some i18n =>
      bool_decide (strategy i18n = separate_index)
      && negb (bool_decide (languages i18n = []))
  | None => false
  end.

Definition registryLanguages this (language : option string) : list string :=
  match language with
  | Some lang =>
      if given language then [lang]
      else from_option languages [] (i18n (config_ this))
  | None => from_option languages [] (i18n (config_ this))
  end.

Definition descriptor (language : option string)
    (entry : string * IndexConfig W) : IndexWithFetcher :=
  {| iwf_indexKey := fst entry;
     iwf_type := type (snd entry);
     iwf_language := language |}.

Definition registrySpec this (language : option string)
  : list IndexWithFetcher :=
  let surviving := List.filter survives (settings (config_ this)) in
  if expandsPerLanguage this then
    flat_map
      (λ entry,
         map (λ lang, descriptor (Some lang) entry)
           (registryLanguages this language))
      surviving
  else map (descriptor language) surviving.

(** The same over any list of configuration entries: entry by entry, and
    language by language within an entry. *)
Definition descriptorsOf this (language : option string)
    (entries : list (string * IndexConfig W)) : list IndexWithFetcher :=
  let surviving := List.filter survives entries in
  if expandsPerLanguage this then
    flat_map
      (λ entry,
         map (λ lang, descriptor (Some lang) entry)
           (registryLanguages this language))
      surviving
  else map (descriptor language) surviving.

(** The membership probe both sync steps make: the identities the
    engine reports among [documentIds]; none when there is nothing to
    probe or when the probe fails. *)
Definition probe this (indexKey : string) (language : option string)
    (documentIds : list value) : IO W (list value) :=
  if (0 <? length documentIds)%nat then
    try_catch
      (hits <-
         search this indexKey "" (membershipFilter documentIds) language ;;
       ret (map (λ hit, prop hit "id") hits))
      (λ _, ret [])
  else ret [].

(** What both sync steps do with a non-empty fetch: probe, write, delete,
    count. *)
Definition reconcile this (indexKey : string) (language : option string)
    (documents : list Doc) : IO W SyncDocumentsStepResult :=
  let documentIds := documentIdsOf documents in
  existingDocumentIds <- probe this indexKey language documentIds ;;
  let documentsToDelete :=
    documentsToDeleteOf existingDocumentIds documentIds in
  addDocuments this indexKey documents language ;;;
  (if (0 <? length documentsToDelete)%nat then
     deleteDocuments this indexKey documentsToDelete language
   else ret tt) ;;;
  ret {| documents := documents;
         added := length documents;
         deleted := length documentsToDelete |}.

(** The single-index sync input of a descriptor within a bulk sync. *)
Definition inputOf (filters : option (gmap string value))
    (limit offset : option Z) (indexInfo : IndexWithFetcher)
  : SyncDocumentsStepInput :=
  {| indexKey := iwf_indexKey indexInfo; filters := filters;
     limit := limit; offset := offset;
     language := iwf_language indexInfo |}.

(** The entry of a bulk result for a descriptor whose single-index sync
    ended with [o]. *)
Definition entryOf (indexInfo : IndexWithFetcher)
    (o : outcome SyncDocumentsStepResult) : IndexSyncResult :=
  match o with
  | Returned r =>
      {| isr_indexKey := iwf_indexKey indexInfo;
         isr_language := iwf_language indexInfo;
         success := true;
         isr_documents := documents r;
         isr_added := added r;
         isr_deleted := deleted r;
         error := None |}
  | Threw e =>
      {| isr_indexKey := iwf_indexKey indexInfo;
         isr_language := iwf_language indexInfo;
         success := false;
         isr_documents := [];
         isr_added := 0;
         isr_deleted := 0;
         error := Some (errorMessageOf e) |}
  end.



(** The window [offset, offset + limit) of a source. *)
Definition window (source : list Doc) (limit offset : Z) : list Doc :=
  take (Z.to_nat limit) (drop (Z.to_nat offset) source).
End Notions.

(** ** Concrete services, used as instances of the statements below *)

Module Shop.
(** A world without state. *)
Definition product (id : string) : Doc := {[ "id" := VStr id ]}.

Definition fetching (documents : list Doc) : @DocumentFetcher unit :=
  λ _ w, (Returned documents, w).

Definition failing (message : string) : @DocumentFetcher unit :=
  λ _ w, (Threw (ErrorObject message), w).

Definition custom (fetcher : @DocumentFetcher unit) : IndexConfig unit :=
  {| type := None; enabled := None; fields := None;
     transformer := None; fetcher := Some fetcher |}.

(** An engine that reports the document [p1] for every probe and accepts
    every write and delete. *)
Definition engine : MeiliSearch unit :=
  {| index_search := λ _ _ _ w, (Returned [product "p1"], w);
     index_addDocuments := λ _ _ w, (Returned tt, w);
     index_deleteDocuments := λ _ _ w, (Returned tt, w) |}.

Definition catalog : Container unit :=
  {| graph := λ _ w, (Returned [product "p1"], w) |}.

Definition service (settings : list (string * IndexConfig unit))
    (i18n : option I18nConfig) : MeiliSearchService unit :=
  {| config_ := {| settings := settings; i18n := i18n |};
     client_ := engine;
     container_ := catalog;
     transformProduct := λ doc _, Returned doc |}.

Definition perLanguage (languages : list string) : option I18nConfig :=
  Some {| strategy := separate_index; languages := languages;
          defaultLanguage := "en" |}.

(** One index per language, English by default. *)
Definition bilingual : MeiliSearchService unit :=
  service [("products", custom (fetching [product "p1"]))]
    (perLanguage ["en"; "fr"]).

(** Index keys and language codes that contain the separator. *)
Definition underscored : MeiliSearchService unit :=
  service [("a", custom (fetching [])); ("a_b", custom (fetching []))]
    (perLanguage ["b_c"; "c"]).


(** A fetcher that throws an error with a message. *)
Definition outage : MeiliSearchService unit :=
  service [("good", custom (fetching [product "p1"]));
           ("bad", custom (failing "catalog unavailable"))]
    None.


(** An index switched off. *)
Definition switchedOff : MeiliSearchService unit :=
  service
    [("on", custom (fetching [product "p1"]));
     ("off", {| type := None; enabled := Some false; fields := None;
                transformer := None;
                fetcher := Some (fetching [product "p1"]) |})]
    None.

(** The built-in products index, without a fetcher of its own. *)
Definition builtin : MeiliSearchService unit :=
  service
    [("products", {| type := Some PRODUCTS; enabled := None;
                     fields := Some ["id"; "title"];
                     transformer := None; fetcher := None |})]
    None.

(** A source of [n] documents, served window by window. *)
Definition source (n : nat) : list Doc :=
  map (λ i, {[ "id" := VNum (Z.of_nat i) ]}) (seq 1 n).

Definition paging (source : list Doc) : @DocumentFetcher unit :=
  λ options w,
    (Returned (window source (default 0%Z (fo_limit options))
                 (default 0%Z (fo_offset options))), w).

Definition paged (n : nat) : MeiliSearchService unit :=
  service [("products", custom (paging (source n)))] None.

Definition job (limit batchSize : option Z) : IndexSyncJobData :=
  {| jd_indexKey := "products"; jd_filters := None; jd_limit := limit;
     jd_offset := None; jd_batchSize := batchSize |}.

Definition windowInput (limit offset : Z) : SyncDocumentsStepInput :=
  {| indexKey := "products"; filters := None; limit := Some limit;
     offset := Some offset; language := None |}.

(** A configuration written with a name first and numbers after it, and
    the service that holds it. *)
Definition numbered : list (string * IndexConfig unit) :=
  [("b", custom (fetching [])); ("10", custom (fetching []));
   ("1", custom (fetching []))].

Definition shelves : MeiliSearchService unit :=
  service (Object_entries numbered) None.

(** A workflow engine that rejects with a plain copy of what the step
    threw, which is not an [Error] any more. *)
Definition rejection (e : thrown) : thrown := NonError.
End Shop.

Module Memory.
(** An engine kept in memory: the world maps a physical index key to the
    documents stored under it. A probe returns what the index holds and
    fails on an index that does not exist yet; a write stores the
    documents. *)
Abbreviation Store := (gmap string (list Doc)).

Definition engine : MeiliSearch Store :=
  {| index_search := λ physicalKey _ _ store,
       match store !! physicalKey with
       | Some documents => (Returned documents, store)
       | None => (Threw (ErrorObject "index_not_found"), store)
       end;
     index_addDocuments := λ physicalKey documents store,
       (Returned tt, <[physicalKey := documents]> store);
     index_deleteDocuments := λ physicalKey ids store,
       (Returned tt,
        alter (List.filter (λ doc, negb (includes ids (prop doc "id"))))
          physicalKey store) |}.

Definition inventory : list Doc :=
  [ {[ "id" := VStr "a" ]}; {[ "id" := VStr "b" ]} ].

Definition service : MeiliSearchService Store :=
  {| config_ :=
       {| settings :=
            [("stock", {| type := None; enabled := None; fields := None;
                          transformer := None;
                          fetcher := Some (λ _ store, (Returned inventory, store)) |})];
          i18n := None |};
     client_ := engine;
     container_ := {| graph := λ _ store, (Returned [], store) |};
     transformProduct := λ doc _, Returned doc |}.

Definition input : SyncDocumentsStepInput :=
  {| indexKey := "stock"; filters := None; limit := None; offset := None;
     language := None |}.
End Memory.

(** ** The rest of the service and of the jobs *)

(** What [client.getIndex(key)] can come to: the index, a rejection whose
    [code] is [index_not_found], or any other rejection. *)
Inductive IndexLookup : Type :=
  | IndexFound
  | IndexNotFound
  | LookupFailed.

(** The calls of the index management. *)
Inductive IndexCall : Type :=
  | GetIndex (physicalKey : string)
  | CreateIndex (physicalKey : string) (primaryKey : string)
  | UpdateIndexSettings (physicalKey : string) (indexSettings : gmap string value).

(** The physical index a management call addresses. *)
Definition managed (c : IndexCall) : string :=
  match c with
  | GetIndex physicalKey => physicalKey
  | CreateIndex physicalKey _ => physicalKey
  | UpdateIndexSettings physicalKey _ => physicalKey
  end.

(** [Pick<SearchTypes.IndexSettings, 'indexSettings' | 'primaryKey'>]. *)
Record IndexSettings : Type := {
  indexSettings : option (gmap string value);
  primaryKey : option string;
}.

Section Management.
Context {W : Type}.
Implicit Types (this : MeiliSearchService W).

(** The part of the search engine client that manages indexes:
    [client.getIndex(key)], [client.createIndex(key, {primaryKey})],
    [client.index(key).updateSettings(settings)]. *)
Record IndexManager : Type := {
  client_getIndex : string → W → IndexLookup * W;
  client_createIndex : string → string → W → outcome unit * W;
  index_updateSettings : string → gmap string value → W → outcome unit * W;
}.

(** A managed run: the outcome, the world left and the calls made. *)
Definition Managed (A : Type) : Type := outcome A * W * list IndexCall.

Definition getFieldsForIndex this (indexKey : string) : list string :=
  match indexConfigOf this indexKey with
  | None => ["*"]
  | Some indexConfig =>
      if disabled indexConfig then ["*"]
      else
        match fields indexConfig with
        | Some fs => fs
        | None => ["*"]
        end
  end.

Definition getIndexesByType this (type_ : string) : list string :=
  let baseIndexes :=
    map fst
      (List.filter
         (λ entry, bool_decide (type entry.2 = Some type_) && negb (disabled entry.2))
         (settings (config_ this))) in
  match i18n (config_ this) with
  | Some i18n =>
      if bool_decide (strategy i18n = separate_index) then
        flat_map
          (λ baseIndex,
             map (λ lang, getLanguageIndexKey this baseIndex (Some lang))
               (languages i18n))
          baseIndexes
      else baseIndexes
  | None => baseIndexes
  end.

(** [upsertIndex]: the [catch] clause swallows every rejection of
    [getIndex] and creates the index on [index_not_found] only. *)
Definition upsertIndex this (manager : IndexManager) (indexKey : string)
    (settings : IndexSettings) (w : W) : Managed unit :=
  if from_option disabled false (indexConfigOf this indexKey) then
    (Returned tt, w, [])
  else
    let '(found, w1) := client_getIndex manager indexKey w in
    match found with
    | IndexNotFound =>
        let key := default "id" (primaryKey settings) in
        let '(created, w2) := client_createIndex manager indexKey key w1 in
        (created, w2, [GetIndex indexKey; CreateIndex indexKey key])
    | IndexFound | LookupFailed => (Returned tt, w1, [GetIndex indexKey])
    end.

(** [await this.upsertIndex(key, settings); return
    this.client_.index(key).updateSettings(settings.indexSettings ?? {})]. *)
Definition upsertAndUpdate this (manager : IndexManager) (physicalKey : string)
    (settings : IndexSettings) (w : W) : Managed unit :=
  let '(upserted, w1, calls1) := upsertIndex this manager physicalKey settings w in
  match upserted with
  | Threw e => (Threw e, w1, calls1)
  | Returned _ =>
      let payload := default ∅ (indexSettings settings) in
      let '(updated, w2) := index_updateSettings manager physicalKey payload w1 in
      (updated, w2, calls1 ++ [UpdateIndexSettings physicalKey payload])
  end.

(** [Promise.all(languages.map(async (lang) => ...))]: every language is
    started whatever the others come to. The languages are taken here in
    list order, and the rejection is the first one in that order. *)
Fixpoint updateEach this (manager : IndexManager) (indexKey : string)
    (settings : IndexSettings) (langs : list string) (w : W) : Managed unit :=
  match langs with
  | [] => (Returned tt, w, [])
  | lang :: rest =>
      let '(o, w1, calls1) :=
        upsertAndUpdate this manager
          (getLanguageIndexKey this indexKey (Some lang)) settings w in
      let '(o', w2, calls2) := updateEach this manager indexKey settings rest w1 in
      (match o with Threw e => Threw e | Returned _ => o' end, w2,
       calls1 ++ calls2)
  end.

Definition updateSettings this (manager : IndexManager) (indexKey : string)
    (settings : IndexSettings) (w : W) : Managed unit :=
  if from_option disabled false (indexConfigOf this indexKey) then
    (Returned tt, w, [])
  else
    match i18n (config_ this) with
    | Some i18n =>
        if bool_decide (strategy i18n = separate_index) then
          updateEach this manager indexKey settings (languages i18n) w
        else upsertAndUpdate this manager indexKey settings w
    | None => upsertAndUpdate this manager indexKey settings w
    end.

(** jobs/meilisearch-bulk-index: the bulk workflow on the empty input; the
    value is the list of failures the job warns about, and a failure of the
    workflow is rethrown. *)
Definition meilisearchBulkIndexJob this : IO W (list IndexSyncResult) :=
  try_catch
    (out <- bulkSyncDocumentsWorkflow this None None None None None ;;
     ret (List.filter (λ r, negb (success r)) (results out)))
    (λ e w, mkRun (Threw e) w []).
End Management.

Arguments IndexManager : clear implicits.

Module Depot.
(** An index manager kept in memory: the world is the list of the physical
    indexes that exist. *)
Definition manager : IndexManager (list string) :=
  {| client_getIndex := λ physicalKey existing,
       (if bool_decide (physicalKey ∈ existing) then IndexFound else IndexNotFound,
        existing);
     client_createIndex := λ physicalKey _ existing,
       (Returned tt, existing ++ [physicalKey]);
     index_updateSettings := λ physicalKey _ existing,
       (if bool_decide (physicalKey ∈ existing) then Returned tt
        else Threw (ErrorObject "index_not_found"),
        existing) |}.

Definition searchable : IndexSettings :=
  {| indexSettings := Some {[ "searchableAttributes" := VStr "title" ]};
     primaryKey := None |}.

Definition service (settings : list (string * IndexConfig (list string)))
    (i18n : option I18nConfig) : MeiliSearchService (list string) :=
  {| config_ := {| settings := settings; i18n := i18n |};
     client_ :=
       {| index_search := λ _ _ _ w, (Returned [], w);
          index_addDocuments := λ _ _ w, (Returned tt, w);
          index_deleteDocuments := λ _ _ w, (Returned tt, w) |};
     container_ := {| graph := λ _ w, (Returned [], w) |};
     transformProduct := λ doc _, Returned doc |}.

Definition plain : IndexConfig (list string) :=
  {| type := Some PRODUCTS; enabled := None; fields := None;
     transformer := None; fetcher := None |}.

Definition bilingual : MeiliSearchService (list string) :=
  service [("products", plain)] (Shop.perLanguage ["en"; "fr"]).

(** The same, with a fetcher of its own. *)
Definition stocked : MeiliSearchService (list string) :=
  service
    [("products",
      {| type := Some PRODUCTS; enabled := None; fields := None;
         transformer := None;
         fetcher := Some (λ _ w, (Returned [], w)) |})]
    (Shop.perLanguage ["en"; "fr"]).

(** Documents without [id] and [_id]. *)
Definition untitled : list Doc := [ {[ "title" := VStr "untitled" ]} ].

Definition anonymous : MeiliSearchService (list string) :=
  service
    [("notes",
      {| type := None; enabled := None; fields := None; transformer := None;
         fetcher := Some (λ _ w, (Returned untitled, w)) |})]
    None.

Definition notes : SyncDocumentsStepInput :=
  {| indexKey := "notes"; filters := None; limit := None; offset := None;
     language := None |}.
End Depot.

(** * Properties *)

(** ** Runs *)

Section RunLemmas.
Context {W : Type}.

Lemma invoke_run {A} (c : Call) (capability : W → outcome A * W) w :
  invoke c capability w
  = mkRun (capability w).1 (capability w).2 [c].
Proof. unfold invoke. by destruct (capability w). Qed.

Lemma calls_invoke {A} (c : Call) (capability : W → outcome A * W) w :
  calls (invoke c capability w) = [c].
Proof. by rewrite invoke_run. Qed.

Lemma result_bind {A B} (m : IO W A) (k : A → IO W B) w :
  result (bind m k w)
  = match result (m w) with
    | Returned a => result (k a (world (m w)))
    | Threw e => Threw e
    end.
Proof. unfold bind. by destruct (result (m w)). Qed.

Lemma calls_bind {A B} (m : IO W A) (k : A → IO W B) w :
  calls (bind m k w)
  = match result (m w) with
    | Returned a => calls (m w) ++ calls (k a (world (m w)))
    | Threw e => calls (m w)
    end.
Proof. unfold bind. by destruct (result (m w)). Qed.

Lemma world_bind {A B} (m : IO W A) (k : A → IO W B) w :
  world (bind m k w)
  = match result (m w) with
    | Returned a => world (k a (world (m w)))
    | Threw e => world (m w)
    end.
Proof. unfold bind. by destruct (result (m w)). Qed.

Lemma result_try_catch {A} (body : IO W A) handler w :
  result (try_catch body handler w)
  = match result (body w) with
    | Returned a => Returned a
    | Threw e => result (handler e (world (body w)))
    end.
Proof. unfold try_catch. by destruct (result (body w)) eqn:E. Qed.

Lemma world_try_catch {A} (body : IO W A) handler w :
  world (try_catch body handler w)
  = match result (body w) with
    | Returned a => world (body w)
    | Threw e => world (handler e (world (body w)))
    end.
Proof. unfold try_catch. by destruct (result (body w)). Qed.

Lemma calls_try_catch {A} (body : IO W A) handler w :
  calls (try_catch body handler w)
  = match result (body w) with
    | Returned a => calls (body w)
    | Threw e => calls (body w) ++ calls (handler e (world (body w)))
    end.
Proof. unfold try_catch. by destruct (result (body w)). Qed.

Lemma run_eta {A} (r : Run W A) : mkRun (result r) (world r) (calls r) = r.
Proof. by destruct r. Qed.

Lemma run_eq {A} (r1 r2 : Run W A) :
  result r1 = result r2 → world r1 = world r2 → calls r1 = calls r2 →
  r1 = r2.
Proof. destruct r1, r2; simpl; congruence. Qed.

Lemma bind_ret_l {A B} (a : A) (k : A → IO W B) w : bind (ret a) k w = k a w.
Proof. unfold bind, ret; simpl. apply run_eta. Qed.

Lemma bind_assoc {A B C} (m : IO W A) (k : A → IO W B) (h : B → IO W C) w :
  bind (bind m k) h w = bind m (λ a, bind (k a) h) w.
Proof.
  unfold bind. destruct (result (m w)); simpl; [|done].
  destruct (result (k a (world (m w)))); simpl; [|done].
  by rewrite app_assoc.
Qed.

Lemma bind_ext {A B} (m : IO W A) (k1 k2 : A → IO W B) w :
  (∀ a w', k1 a w' = k2 a w') → bind m k1 w = bind m k2 w.
Proof. intros H. unfold bind. destruct (result (m w)); [|done]. by rewrite H. Qed.
End RunLemmas.

Section Calls.
Context {W : Type}.
Implicit Types (this : MeiliSearchService W) (P : Call → Prop).

Lemma Forall_calls_bind {A B} P (m : IO W A) (k : A → IO W B) w :
  Forall P (calls (m w)) →
  (∀ a w', Forall P (calls (k a w'))) →
  Forall P (calls (bind m k w)).
Proof.
  intros Hm Hk. unfold bind. destruct (result (m w)); simpl; [|done].
  apply Forall_app. split; [done|apply Hk].
Qed.

Lemma Forall_calls_try_catch {A} P (body : IO W A) handler w :
  Forall P (calls (body w)) →
  (∀ e w', Forall P (calls (handler e w'))) →
  Forall P (calls (try_catch body handler w)).
Proof.
  intros Hm Hk. unfold try_catch. destruct (result (body w)); simpl; [done|].
  apply Forall_app. split; [done|apply Hk].
Qed.

Lemma Forall_calls_ret {A} P (a : A) (w : W) : Forall P (calls (ret a w)).
Proof. constructor. Qed.

Lemma Forall_calls_invoke {A} P c (capability : W → outcome A * W) w :
  P c → Forall P (calls (invoke c capability w)).
Proof. intros Hc. rewrite calls_invoke. by repeat constructor. Qed.

Lemma Forall_calls_for_each {A B} P (f : A → IO W B) xs w :
  (∀ x w', Forall P (calls (f x w'))) →
  Forall P (calls (for_each f xs w)).
Proof.
  intros Hf. revert w. induction xs as [|x xs IH]; intros w; simpl.
  - constructor.
  - apply Forall_calls_bind; [apply Hf|]. intros y w'.
    apply Forall_calls_bind; [apply IH|]. intros. apply Forall_calls_ret.
Qed.

Lemma Forall_calls_fetchDocuments P this indexKey options w :
  (∀ k o, P (Fetch k o)) → (∀ q, P (Graph q)) →
  Forall P (calls (fetchDocuments this indexKey options w)).
Proof.
  intros HF HG. unfold fetchDocuments, getDocumentFetcher.
  repeat case_match; simplify_eq;
    auto using Forall_calls_ret, Forall_calls_invoke.
Qed.

Lemma Forall_calls_getTransformedDocuments P this indexKey documents options w :
  (∀ k d, P (Transform k d)) →
  Forall P (calls (getTransformedDocuments this indexKey documents options w)).
Proof.
  intros HT. unfold getTransformedDocuments.
  repeat case_match;
    auto using Forall_calls_ret, Forall_calls_invoke, Forall_calls_for_each.
Qed.

Lemma Forall_calls_addDocuments P this indexKey documents language w :
  (∀ k d, P (Transform k d)) → (∀ k ds, P (AddDocuments k ds)) →
  Forall P (calls (addDocuments this indexKey documents language w)).
Proof.
  intros HT HA. unfold addDocuments.
  repeat case_match;
    (apply Forall_calls_bind;
     [by apply Forall_calls_getTransformedDocuments
     |intros; by apply Forall_calls_invoke]).
Qed.

Lemma Forall_calls_search P this indexKey query filter language w :
  (∀ k q f, P (Search k q f)) →
  Forall P (calls (search this indexKey query filter language w)).
Proof. intros. by apply Forall_calls_invoke. Qed.

Lemma Forall_calls_deleteDocuments P this indexKey ids language w :
  (∀ k i, P (DeleteDocuments k i)) →
  Forall P (calls (deleteDocuments this indexKey ids language w)).
Proof. intros. by apply Forall_calls_invoke. Qed.
End Calls.
Section Plain.
Context {W : Type}.
Implicit Types (this : MeiliSearchService W).

Lemma assoc_Some {A} key (entries : list (string * A)) v :
  assoc key entries = Some v → (key, v) ∈ entries.
Proof.
  induction entries as [|[k x] entries IH]; simpl; [done|].
  destruct (String.eqb k key) eqn:Hk.
  - apply String.eqb_eq in Hk as ->. intros [= ->]. left.
  - intros H. right. by apply IH.
Qed.

Lemma assoc_NoDup {A} key (entries : list (string * A)) v :
  NoDup (map fst entries) → (key, v) ∈ entries → assoc key entries = Some v.
Proof.
  induction entries as [|[k x] entries IH]; simpl; intros Hnd Hin.
  - by apply elem_of_nil in Hin.
  - apply NoDup_cons in Hnd as [Hk Hnd].
    apply elem_of_cons in Hin as [[= <- <-]|Hin].
    + by rewrite String.eqb_refl.
    + destruct (String.eqb k key) eqn:Heq; [|by apply IH].
      apply String.eqb_eq in Heq as ->. exfalso. apply Hk.
      apply list_elem_of_fmap. by exists (key, v).
Qed.

(** Without transformers of any kind, a write is the client's. *)
Lemma writes_succeed_plain this :
  Forall (λ entry, transformer entry.2 = None ∧ type entry.2 ≠ Some PRODUCTS)
    (settings (config_ this)) →
  (∀ physicalKey documents w,
      (index_addDocuments (client_ this) physicalKey documents w).1
      = Returned tt) →
  writes_succeed this.
Proof.
  intros Hplain Hadd indexKey documents language w.
  assert (∀ options w',
    ∃ out, result (getTransformedDocuments this indexKey documents options w')
           = Returned out) as Htransformed.
  { intros options w'. unfold getTransformedDocuments.
    destruct (length documents =? 0)%nat; [by eexists|].
    destruct (indexConfigOf this indexKey) as [indexConfig|] eqn:Hcfg; simpl.
    - apply assoc_Some in Hcfg.
      rewrite Forall_forall in Hplain.
      destruct (Hplain _ Hcfg) as [Hnone Htype]. simpl in *.
      rewrite Hnone, bool_decide_eq_false_2 by done. by eexists.
    - by eexists. }
  unfold addDocuments.
  repeat case_match;
    rewrite result_bind;
    (edestruct Htransformed as [out ->]); rewrite invoke_run; apply Hadd.
Qed.

Lemma deletes_succeed_plain this :
  (∀ physicalKey ids w,
      (index_deleteDocuments (client_ this) physicalKey ids w).1 = Returned tt) →
  deletes_succeed this.
Proof.
  intros Hdel indexKey ids language w. unfold deleteDocuments.
  rewrite invoke_run. apply Hdel.
Qed.
End Plain.


Section Reconciliation.
Context {W : Type}.
Implicit Types (this : MeiliSearchService W).

(** Both steps, written with [reconcile]. *)
Lemma syncDocumentsStep_reconcile this input :
  syncDocumentsStep this input
  = match indexConfigOf this (indexKey input) with
    | None => ret noDocuments
    | Some indexConfig =>
        if disabled indexConfig then ret noDocuments
        else
          documents <-
            fetchDocuments this (indexKey input)
              (fetchOptions (filters input) (limit input) (offset input)
                 (language input)) ;;
          if (length documents =? 0)%nat then ret noDocuments
          else reconcile this (indexKey input) (language input) documents
    end.
Proof. reflexivity. Qed.

Lemma documentsToDeleteOf_honest (existing ids : list value) :
  Forall (λ id, id ∈ ids) existing → documentsToDeleteOf existing ids = [].
Proof.
  unfold documentsToDeleteOf, includes.
  induction 1 as [|id rest Hid _ IH]; simpl; [done|].
  by rewrite bool_decide_eq_true_2.
Qed.

Lemma Forall_calls_probe (P : Call → Prop) this indexKey language ids w :
  (∀ k q f, P (Search k q f)) →
  Forall P (calls (probe this indexKey language ids w)).
Proof.
  intros HS. unfold probe. case_match; [|apply Forall_calls_ret].
  apply Forall_calls_try_catch; [|intros; apply Forall_calls_ret].
  apply Forall_calls_bind; [by apply Forall_calls_search|].
  intros; apply Forall_calls_ret.
Qed.

(** A probe never throws. *)
Lemma probe_returns this indexKey language ids w :
  ∃ existing, result (probe this indexKey language ids w) = Returned existing.
Proof.
  unfold probe. case_match; [|by eexists].
  rewrite result_try_catch, result_bind.
  destruct (result (search _ _ _ _ _ _)); simpl; by eexists.
Qed.

(** An honest probe reports identities of the probed list only. *)
Lemma probe_honest this indexKey language ids w existing :
  honest_probe this ids →
  result (probe this indexKey language ids w) = Returned existing →
  Forall (λ id, id ∈ ids) existing.
Proof.
  intros Hhonest. unfold probe. case_match; [|by intros [= <-]].
  rewrite result_try_catch, result_bind. unfold search. rewrite invoke_run. simpl.
  destruct (index_search _ _ _ _ w) as [[hits|e] w'] eqn:Hsearch; simpl.
  - intros [= <-]. apply Forall_map. eapply Hhonest, Hsearch.
  - by intros [= <-].
Qed.

Lemma reconcile_honest this indexKey language documents w :
  honest_probe this (documentIdsOf documents) →
  let run := reconcile this indexKey language documents w in
  Forall (λ c, is_delete c = false) (calls run)
  ∧ (∀ r, result run = Returned r →
          r = {| documents := documents; added := length documents; deleted := 0 |})
  ∧ (writes_succeed this → ∃ r, result run = Returned r).
Proof.
  intros Hhonest run. subst run. unfold reconcile.
  pose proof (Forall_calls_probe (λ c, is_delete c = false) this indexKey
                language (documentIdsOf documents) w (λ _ _ _, eq_refl)) as Hpc.
  destruct (probe_returns this indexKey language (documentIdsOf documents) w)
    as [existing Hprobe].
  pose proof (probe_honest _ _ _ _ _ _ Hhonest Hprobe) as Hin.
  apply documentsToDeleteOf_honest in Hin.
  rewrite !result_bind, !calls_bind, Hprobe, Hin. simpl.
  rewrite !result_bind, !calls_bind. simpl.
  set (add := addDocuments _ _ _ _ _).
  pose proof (Forall_calls_addDocuments (λ c, is_delete c = false) this indexKey
                documents language (world (probe this indexKey language
                   (documentIdsOf documents) w)) (λ _ _, eq_refl) (λ _ _, eq_refl)) as Hac.
  fold add in Hac.
  split; [|split].
  - apply Forall_app. split; [done|].
    destruct (result add); [|done]. by rewrite !app_nil_r.
  - destruct (result add); [|done]. by intros r [= <-].
  - intros Hw. unfold add. rewrite Hw. by eexists.
Qed.

Lemma reconcile_returns this indexKey language documents w :
  writes_succeed this → deletes_succeed this →
  ∃ n, result (reconcile this indexKey language documents w)
       = Returned {| documents := documents; added := length documents;
                     deleted := n |}.
Proof.
  intros Hw Hd. unfold reconcile.
  destruct (probe_returns this indexKey language (documentIdsOf documents) w)
    as [existing Hprobe].
  rewrite result_bind, Hprobe, result_bind, Hw, result_bind.
  destruct (0 <? length _)%nat; [rewrite Hd|]; by eexists.
Qed.

Lemma fetchDocuments_unconfigured this indexKey options w :
  match indexConfigOf this indexKey with
  | Some indexConfig => disabled indexConfig = true
  | None => True
  end →
  fetchDocuments this indexKey options w = ret [] w.
Proof.
  unfold fetchDocuments, getDocumentFetcher.
  destruct (indexConfigOf this indexKey); [|done]. by intros ->.
Qed.

Lemma length_eqb_nil {A} (l : list A) : (length l =? 0)%nat = true → l = [].
Proof. by destruct l. Qed.


(** A sync whose fetch, write and delete succeed returns the fetched
    documents and their number. *)
Lemma syncDocumentsStep_returns this input w fetched :
  result (fetchDocuments this (indexKey input)
            (fetchOptions (filters input) (limit input) (offset input)
               (language input)) w) = Returned fetched →
  writes_succeed this → deletes_succeed this →
  ∃ n, result (syncDocumentsStep this input w)
       = Returned {| documents := fetched; added := length fetched;
                     deleted := n |}.
Proof.
  intros Hfetch Hw Hd. rewrite syncDocumentsStep_reconcile.
  assert (∀ w', ∃ n, result (ret (W:=W) noDocuments w')
                     = Returned {| documents := []; added := length (@nil Doc);
                                   deleted := n |}) as Hnone by (by exists 0).
  destruct (indexConfigOf this (indexKey input)) as [indexConfig|] eqn:Hcfg.
  - destruct (disabled indexConfig) eqn:Hoff.
    + rewrite fetchDocuments_unconfigured in Hfetch by (by rewrite Hcfg).
      injection Hfetch as <-. apply Hnone.
    + rewrite result_bind, Hfetch.
      destruct (length fetched =? 0)%nat eqn:Hlen.
      * apply length_eqb_nil in Hlen as ->. apply Hnone.
      * by apply reconcile_returns.
  - rewrite fetchDocuments_unconfigured in Hfetch by (by rewrite Hcfg).
    injection Hfetch as <-. apply Hnone.
Qed.
End Reconciliation.

Section Bulk.
Context {W : Type}.
Implicit Types (this : MeiliSearchService W).

(** The callback of the bulk sync does for its descriptor what the
    single-index sync does, and turns the outcome into an entry: it makes
    the same calls, leaves the same world, and never throws. *)
Lemma syncIndex_run this filters limit offset indexInfo w :
  syncIndex this filters limit offset indexInfo w
  = let r := syncDocumentsStep this (inputOf filters limit offset indexInfo) w in
    mkRun (Returned (entryOf indexInfo (result r))) (world r) (calls r).
Proof.
  set (step := syncDocumentsStep this (inputOf filters limit offset indexInfo)).
  unfold syncIndex, try_catch.
  match goal with |- context [result (?body w)] =>
    assert (body w = (r <- step ;; ret (entryOf indexInfo (Returned r))) w) as ->
  end.
  { unfold step, syncDocumentsStep. simpl.
    destruct (indexConfigOf this (iwf_indexKey indexInfo)) as [indexConfig|];
      [|by rewrite bind_ret_l].
    destruct (disabled indexConfig); [by rewrite bind_ret_l|].
    rewrite bind_assoc. apply bind_ext. intros documents w1.
    destruct (length documents =? 0)%nat; [by rewrite bind_ret_l|].
    rewrite bind_assoc. apply bind_ext. intros existing w2.
    rewrite bind_assoc. apply bind_ext. intros _ w3.
    rewrite bind_assoc. apply bind_ext. intros _ w4.
    by rewrite bind_ret_l. }
  simpl. rewrite result_bind, world_bind, calls_bind.
  destruct (result (step w)) as [r|e] eqn:Hstep; simpl; [|by rewrite app_nil_r].
  apply run_eq; simpl; rewrite ?result_bind, ?world_bind, ?calls_bind, Hstep;
    simpl; by rewrite ?app_nil_r.
Qed.

End Bulk.

Section HonestProbe.
Context {W : Type}.
Implicit Types (this : MeiliSearchService W).

Lemma syncDocumentsStep_honest this input w :
  honest_probes this (indexKey input)
    (fetchOptions (filters input) (limit input) (offset input) (language input)) →
  Forall (λ c, is_delete c = false) (calls (syncDocumentsStep this input w))
  ∧ ∀ r, result (syncDocumentsStep this input w) = Returned r → deleted r = 0.
Proof.
  intros Hhonest. rewrite syncDocumentsStep_reconcile.
  destruct (indexConfigOf this (indexKey input)) as [indexConfig|];
    [|split; [constructor|by intros r [= <-]]].
  destruct (disabled indexConfig); [split; [constructor|by intros r [= <-]]|].
  rewrite calls_bind, result_bind.
  pose proof (Forall_calls_fetchDocuments (λ c, is_delete c = false) this
                (indexKey input)
                (fetchOptions (filters input) (limit input) (offset input)
                   (language input)) w (λ _ _, eq_refl) (λ _, eq_refl)) as Hfc.
  specialize (Hhonest w).
  destruct (result (fetchDocuments _ _ _ w)) as [documents|e]; [|done].
  specialize (Hhonest documents eq_refl).
  destruct (length documents =? 0)%nat.
  { simpl. rewrite app_nil_r. split; [done|by intros r [= <-]]. }
  destruct (reconcile_honest this (indexKey input) (language input) documents
              (world (fetchDocuments this (indexKey input)
                 (fetchOptions (filters input) (limit input) (offset input)
                    (language input)) w)) Hhonest) as (Hcalls & Hres & _).
  split; [by apply Forall_app|].
  intros r Hr. by rewrite (Hres r Hr).
Qed.

(** C2. Under an honest membership probe the single-index sync computes an
    empty deletion set, issues no [deleteDocuments] call and reports
    [deleted = 0]; the same holds for the callback the bulk sync runs for
    a descriptor. *)
Theorem honest_probe_never_deletes this filters limit offset indexInfo w :
  honest_probes this (iwf_indexKey indexInfo)
    (fetchOptions filters limit offset (iwf_language indexInfo)) →
  let input := inputOf filters limit offset indexInfo in
  (∀ documents w' existing,
      result (fetchDocuments this (indexKey input)
                (fetchOptions filters limit offset (language input)) w)
        = Returned documents →
      result (probe this (indexKey input) (language input)
                (documentIdsOf documents) w') = Returned existing →
      documentsToDeleteOf existing (documentIdsOf documents) = [])
  ∧ Forall (λ c, is_delete c = false) (calls (syncDocumentsStep this input w))
  ∧ (∀ r, result (syncDocumentsStep this input w) = Returned r → deleted r = 0)
  ∧ Forall (λ c, is_delete c = false)
      (calls (syncIndex this filters limit offset indexInfo w))
  ∧ (∀ r, result (syncIndex this filters limit offset indexInfo w) = Returned r →
          isr_deleted r = 0).
Proof.
  intros Hhonest input.
  destruct (syncDocumentsStep_honest this input w Hhonest) as [Hcalls Hres].
  split; [|split; [done|split; [done|]]].
  - intros documents w' existing Hfetch Hprobe.
    apply documentsToDeleteOf_honest.
    eapply probe_honest; [|exact Hprobe]. by eapply Hhonest.
  - rewrite syncIndex_run. simpl. split; [done|].
    intros r [= <-]. fold input.
    destruct (result (syncDocumentsStep this input w)) as [r|e] eqn:Hr; simpl; [|done].
    by apply Hres.
Qed.

End HonestProbe.

Lemma honest_probe_never_deletes_witness :
  let indexInfo :=
    {| iwf_indexKey := "products"; iwf_type := None; iwf_language := Some "fr" |} in
  honest_probes Shop.bilingual "products" (fetchOptions None None None (Some "fr"))
  ∧ calls (syncDocumentsStep Shop.bilingual (inputOf None None None indexInfo) tt)
    = [ Fetch "products" (fetchOptions None None None (Some "fr"));
        Search "products_fr" "" (membershipFilter [VStr "p1"]);
        AddDocuments "products_fr" [Shop.product "p1"] ]
  ∧ Forall (λ c, is_delete c = false)
      (calls (syncDocumentsStep Shop.bilingual (inputOf None None None indexInfo) tt))
  ∧ (∀ r, result (syncIndex Shop.bilingual None None None indexInfo tt) = Returned r →
          isr_deleted r = 0).
Proof.
  intros indexInfo.
  assert (Hhonest : honest_probes Shop.bilingual "products"
                      (fetchOptions None None None (Some "fr"))).
  { intros w documents [= <-] physicalKey w1 hits w2 [= <- <-].
    repeat constructor. }
  split; [exact Hhonest|]. split; [reflexivity|].
  destruct (honest_probe_never_deletes Shop.bilingual None None None indexInfo tt
              Hhonest) as (_ & Hcalls & _ & _ & Hbulk).
  split; [exact Hcalls|exact Hbulk].
Defined.



Section BulkSync.
Context {W : Type}.
Implicit Types (this : MeiliSearchService W).

(** The entries of a bulk sync: the fan-out never throws, yields one entry
    per descriptor, and the entry of the descriptor at position [i] is the
    outcome of its single-index sync in the world the descriptors before
    it have left. *)
Lemma for_each_syncIndex this filters limit offset indexes w :
  ∃ entries,
    result (for_each (syncIndex this filters limit offset) indexes w)
      = Returned entries
    ∧ length entries = length indexes
    ∧ ∀ i indexInfo,
        indexes !! i = Some indexInfo →
        entries !! i
        = Some (entryOf indexInfo
                  (result
                     (syncDocumentsStep this
                        (inputOf filters limit offset indexInfo)
                        (world (for_each (syncIndex this filters limit offset)
                                  (take i indexes) w))))).
Proof.
  revert w. induction indexes as [|first rest IH]; intros w.
  - exists []. by repeat split.
  - pose proof (syncIndex_run this filters limit offset first w) as Hfirst.
    simpl in Hfirst.
    set (w1 := world (syncDocumentsStep this
                        (inputOf filters limit offset first) w)) in *.
    destruct (IH w1) as (entries & Hres & Hlen & Hentries).
    simpl. rewrite result_bind, Hfirst. simpl.
    rewrite result_bind, Hres. simpl. eexists. split; [done|].
    split; [simpl; congruence|].
    intros [|i] indexInfo Hi; simpl in *.
    + by injection Hi as ->.
    + rewrite (Hentries i indexInfo Hi). do 3 f_equal.
      rewrite world_bind, Hfirst. simpl. rewrite world_bind.
      by destruct (result (for_each _ (take i rest) _)).
Qed.

Lemma fold_tally (entries : list IndexSyncResult) totals :
  let out := fold_left tally entries totals in
  results out = results totals
  ∧ totalProcessed out = totalProcessed totals
  ∧ totalSuccessful out
    = totalSuccessful totals + length (List.filter success entries)
  ∧ totalFailed out
    = totalFailed totals + length (List.filter (λ r, negb (success r)) entries)
  ∧ totalAdded out = totalAdded totals + sum_list (map isr_added entries)
  ∧ totalDeleted out = totalDeleted totals + sum_list (map isr_deleted entries).
Proof.
  revert totals. induction entries as [|r entries IH]; intros totals; simpl.
  - repeat split; lia.
  - destruct (IH (tally totals r)) as (-> & -> & -> & -> & -> & ->). simpl.
    destruct (success r); simpl; repeat split; lia.
Qed.

Lemma totalsOf_counts (indexes : list IndexWithFetcher) entries :
  let out := totalsOf indexes entries in
  results out = entries
  ∧ totalProcessed out = length indexes
  ∧ totalSuccessful out = length (List.filter success entries)
  ∧ totalFailed out = length (List.filter (λ r, negb (success r)) entries).
Proof.
  unfold totalsOf.
  destruct (fold_tally entries
              {| results := entries; totalProcessed := length indexes;
                 totalSuccessful := 0; totalFailed := 0; totalDocuments := 0;
                 totalAdded := 0; totalDeleted := 0 |})
    as (H1 & H2 & H3 & H4 & _).
  by repeat split.
Qed.

End BulkSync.

Section Steady.
Context {W : Type}.
Implicit Types (this : MeiliSearchService W).











End Steady.

Section Isolation.
Context {W : Type}.
Implicit Types (this : MeiliSearchService W).


End Isolation.




Section BatchDriver.
Context {W : Type} (rejection : thrown → thrown).
Implicit Types (this : MeiliSearchService W).

Lemma Forall_calls_syncDocumentsStep (P : Call → Prop) this input w :
  (∀ c, is_workflow c = false → P c) →
  Forall P (calls (syncDocumentsStep this input w)).
Proof.
  intros HP. rewrite syncDocumentsStep_reconcile.
  repeat case_match; try apply Forall_calls_ret.
  apply Forall_calls_bind; [by apply Forall_calls_fetchDocuments; intros; apply HP|].
  intros documents w1. case_match; [apply Forall_calls_ret|].
  unfold reconcile.
  apply Forall_calls_bind; [by apply Forall_calls_probe; intros; apply HP|].
  intros existing w2.
  apply Forall_calls_bind; [by apply Forall_calls_addDocuments; intros; apply HP|].
  intros _ w3.
  apply Forall_calls_bind; [|intros; apply Forall_calls_ret].
  case_match; [|apply Forall_calls_ret].
  by apply Forall_calls_deleteDocuments; intros; apply HP.
Qed.

Lemma startedBy_none (cs : list Call) :
  Forall (λ c, is_workflow c = false) cs → startedBy cs = [].
Proof.
  induction 1 as [|c cs Hc _ IH]; [done|].
  destruct c; (discriminate || exact IH).
Qed.

Lemma startedBy_syncDocumentsStep this input w :
  startedBy (calls (syncDocumentsStep this input w)) = [].
Proof.
  apply startedBy_none. by apply Forall_calls_syncDocumentsStep.
Qed.

Lemma startedBy_app (cs1 cs2 : list Call) :
  startedBy (cs1 ++ cs2) = startedBy cs1 ++ startedBy cs2.
Proof. apply omap_app. Qed.

Lemma result_syncDocumentsWorkflow this input w :
  result (syncDocumentsWorkflow rejection this input w)
  = match result (syncDocumentsStep this input w) with
    | Returned response => Returned response
    | Threw e => Threw (rejection e)
    end.
Proof. reflexivity. Qed.

Lemma startedBy_syncDocumentsWorkflow this input w :
  startedBy (calls (syncDocumentsWorkflow rejection this input w)) = [input].
Proof.
  change (input :: startedBy (calls (syncDocumentsStep this input w)) = [input]).
  by rewrite startedBy_syncDocumentsStep.
Qed.

(** One turn of the loop, for a sync that returns. *)
Lemma batchLoop_turn this fuel indexKey filters batchSize currentOffset
    totalAdded totalDeleted w r :
  let input :=
    {| indexKey := indexKey; filters := filters; limit := Some batchSize;
       offset := Some currentOffset; language := None |} in
  let turn := syncDocumentsStep this input w in
  result turn = Returned r →
  let run :=
    batchLoop rejection this (S fuel) indexKey filters batchSize currentOffset
      totalAdded totalDeleted w in
  if (Z.of_nat (length (documents r)) <? batchSize)%Z then
    result run = Returned (Completed (totalAdded + added r) (totalDeleted + deleted r))
    ∧ workflowRuns run = [input]
  else
    let next :=
      batchLoop rejection this fuel indexKey filters batchSize
        (currentOffset + batchSize)%Z (totalAdded + added r)
        (totalDeleted + deleted r) (world turn) in
    result run = result next
    ∧ workflowRuns run = input :: workflowRuns next.
Proof.
  intros input turn Hturn run. subst run. unfold workflowRuns.
  cbn [batchLoop]. fold input. rewrite result_bind, calls_bind.
  assert (result (syncDocumentsWorkflow rejection this input w) = Returned r)
    as -> by (rewrite result_syncDocumentsWorkflow; fold turn; by rewrite Hturn).
  change (world (syncDocumentsWorkflow rejection this input w)) with (world turn).
  destruct (Z.of_nat (length (documents r)) <? batchSize)%Z.
  - split; [done|].
    by rewrite startedBy_app, startedBy_syncDocumentsWorkflow.
  - split; [done|].
    by rewrite startedBy_app, startedBy_syncDocumentsWorkflow.
Qed.

Lemma batchLoop_continue this fuel key wanted batchSize currentOffset
    totalAdded totalDeleted w r :
  let input :=
    {| indexKey := key; filters := wanted; limit := Some batchSize;
       offset := Some currentOffset; language := None |} in
  result (syncDocumentsStep this input w) = Returned r →
  (batchSize ≤ Z.of_nat (length (documents r)))%Z →
  let run :=
    batchLoop rejection this (S fuel) key wanted batchSize currentOffset
      totalAdded totalDeleted w in
  let next :=
    batchLoop rejection this fuel key wanted batchSize (currentOffset + batchSize)%Z
      (totalAdded + added r) (totalDeleted + deleted r)
      (world (syncDocumentsStep this input w)) in
  result run = result next ∧ workflowRuns run = input :: workflowRuns next.
Proof.
  intros input Hturn Hfull.
  pose proof (batchLoop_turn this fuel key wanted batchSize currentOffset
                totalAdded totalDeleted w r Hturn) as H.
  simpl in H. by rewrite (proj2 (Z.ltb_ge _ _) Hfull) in H.
Qed.

Lemma batchLoop_stop this fuel key wanted batchSize currentOffset
    totalAdded totalDeleted w r :
  let input :=
    {| indexKey := key; filters := wanted; limit := Some batchSize;
       offset := Some currentOffset; language := None |} in
  result (syncDocumentsStep this input w) = Returned r →
  (Z.of_nat (length (documents r)) < batchSize)%Z →
  let run :=
    batchLoop rejection this (S fuel) key wanted batchSize currentOffset
      totalAdded totalDeleted w in
  result run
  = Returned (Completed (totalAdded + added r) (totalDeleted + deleted r))
  ∧ workflowRuns run = [input].
Proof.
  intros input Hturn Hshort.
  pose proof (batchLoop_turn this fuel key wanted batchSize currentOffset
                totalAdded totalDeleted w r Hturn) as H.
  simpl in H. by rewrite (proj2 (Z.ltb_lt _ _) Hshort) in H.
Qed.
End BatchDriver.

Section BatchDriverClaims.
Context {W : Type} (rejection : thrown → thrown).
Implicit Types (this : MeiliSearchService W).

Lemma length_window (source : list Doc) limit offset :
  length (window source limit offset)
  = Z.to_nat limit `min` (length source - Z.to_nat offset).
Proof. unfold window. by rewrite length_take, length_drop. Qed.

(** C4. On a source of exactly 250 documents served window by window, with
    [batchSize = 100] and no limit from the caller, the batch driver runs the
    single-index sync exactly three times, on the windows at offsets 0, 100
    and 200, which hold 100, 100 and 50 documents; it stops after the
    third, the first to hold fewer than [batchSize] documents, and reports
    250 indexed documents. Three iterations of the loop are enough. *)
Theorem batch_driver_walks_250 this (source : list Doc) key wanted fuel w :
  let data :=
    {| jd_indexKey := key; jd_filters := wanted; jd_limit := None;
       jd_offset := None; jd_batchSize := Some 100%Z |} in
  let windowAt (offset : Z) :=
    {| indexKey := key; filters := wanted;
       limit := Some 100%Z; offset := Some offset; language := None |} in
  length source = 250 →
  key ≠ "" →
  (∀ limit offset w',
      result (fetchDocuments this key
                (fetchOptions wanted (Some limit) (Some offset) None) w')
      = Returned (window source limit offset)) →
  writes_succeed this → deletes_succeed this →
  (3 ≤ fuel)%nat →
  let run := meilisearchIndexSyncJob rejection this fuel (Some data) w in
  workflowRuns run = [windowAt 0%Z; windowAt 100%Z; windowAt 200%Z]
  ∧ map (λ input, length (window source 100 (default 0%Z (offset input))))
      (workflowRuns run) = [100; 100; 50]
  ∧ (∃ removed, result run = Returned (Completed 250 removed))
  ∧ ∀ fuel' currentOffset totalAdded totalDeleted w' r,
      result (syncDocumentsStep this (windowAt currentOffset) w') = Returned r →
      (Z.of_nat (length (documents r)) < 100)%Z →
      result (batchLoop rejection this (S fuel') key wanted 100 currentOffset
                totalAdded totalDeleted w')
      = Returned (Completed (totalAdded + added r) (totalDeleted + deleted r)).
Proof.
  intros data windowAt Hsource Hkey Hfetch Hw Hd Hfuel run.
  destruct fuel as [|[|[|fuel]]]; [lia..|].
  assert (Hlen : ∀ offset,
    length (window source 100 offset) = 100 `min` (250 - Z.to_nat offset)).
  { intros offset. rewrite length_window, Hsource. lia. }
  assert (Hturn : ∀ offset w', ∃ n,
    result (syncDocumentsStep this (windowAt offset) w')
    = Returned {| documents := window source 100 offset;
                  added := length (window source 100 offset);
                  deleted := n |}).
  { intros offset w'.
    apply (syncDocumentsStep_returns this (windowAt offset) w'); [|done..].
    apply Hfetch. }
  assert (Hjob : run = batchLoop rejection this (S (S (S fuel))) key wanted 100 0 0 0 w).
  { unfold run, meilisearchIndexSyncJob, data.
    cbn [jd_indexKey jd_limit jd_offset jd_batchSize jd_filters given_number
           numberOr default from_option].
    assert (String.eqb key "" = false) as -> by (by apply String.eqb_neq).
    reflexivity. }
  clearbody run. subst run.
  destruct (Hturn 0%Z w) as [n1 H1].
  destruct (batchLoop_continue rejection this (S (S fuel)) key wanted 100%Z 0%Z 0 0 w _ H1)
    as [Hr1 Hc1].
  { cbn [documents]. rewrite Hlen. lia. }
  cbn [added deleted] in Hr1, Hc1.
  pose (w1 := world (syncDocumentsStep this (windowAt 0%Z) w)).
  destruct (Hturn (0 + 100)%Z w1) as [n2 H2].
  destruct (batchLoop_continue rejection this (S fuel) key wanted 100%Z (0 + 100)%Z
              (0 + length (window source 100 0)) (0 + n1) w1 _ H2) as [Hr2 Hc2].
  { cbn [documents]. rewrite Hlen. lia. }
  cbn [added deleted] in Hr2, Hc2.
  pose (w2 := world (syncDocumentsStep this (windowAt (0 + 100)%Z) w1)).
  destruct (Hturn (0 + 100 + 100)%Z w2) as [n3 H3].
  destruct (batchLoop_stop rejection this fuel key wanted 100%Z (0 + 100 + 100)%Z
              (0 + length (window source 100 0)
               + length (window source 100 (0 + 100)))
              (0 + n1 + n2) w2 _ H3) as [Hr3 Hc3].
  { cbn [documents]. rewrite Hlen. lia. }
  cbn [added deleted] in Hr3, Hc3.
  assert (Hruns :
    workflowRuns (batchLoop rejection this (S (S (S fuel))) key wanted 100 0 0 0 w)
    = [windowAt 0%Z; windowAt 100%Z; windowAt 200%Z]).
  { etrans; [exact Hc1|]. f_equal.
    etrans; [exact Hc2|]. f_equal. exact Hc3. }
  split; [exact Hruns|]. split; [|split].
  - rewrite Hruns. cbn [map windowAt offset default from_option].
    rewrite !Hlen. repeat f_equal; lia.
  - exists (0 + n1 + n2 + n3).
    etrans; [exact Hr1|]. etrans; [exact Hr2|]. etrans; [exact Hr3|].
    do 2 f_equal. rewrite !Hlen. lia.
  - intros fuel' currentOffset totalAdded totalDeleted w' r Hr Hshort.
    by apply (batchLoop_stop rejection this fuel' key wanted 100%Z currentOffset
                totalAdded totalDeleted w' r Hr).
Qed.

(** X24. With an index key and an explicit limit other than zero, the batch
    driver runs the single-index sync exactly once, with that limit and the
    caller's offset, and does not enter the batch loop, however many
    iterations the loop is allowed; it ends with the counts of that sync,
    or rejects with what the workflow run rejects with. *)
Theorem explicit_limit_single_sync this fuel data explicit w :
  jd_indexKey data ≠ "" →
  jd_limit data = Some explicit →
  explicit ≠ 0%Z →
  let input :=
    {| indexKey := jd_indexKey data; filters := jd_filters data;
       limit := Some explicit; offset := jd_offset data; language := None |} in
  let run := meilisearchIndexSyncJob rejection this fuel (Some data) w in
  workflowRuns run = [input]
  ∧ result run
    = match result (syncDocumentsStep this input w) with
      | Returned r => Returned (Completed (added r) (deleted r))
      | Threw e => Threw (rejection e)
      end.
Proof.
  intros Hkey Hlimit Hnonzero input run. subst run.
  unfold meilisearchIndexSyncJob.
  assert (String.eqb (jd_indexKey data) "" = false) as ->
    by (by apply String.eqb_neq).
  rewrite Hlimit. cbn [given_number].
  assert ((explicit =? 0)%Z = false) as -> by (by apply Z.eqb_neq).
  cbn [negb]. fold input. unfold workflowRuns.
  rewrite calls_bind, result_bind.
  rewrite (result_syncDocumentsWorkflow rejection).
  destruct (result (syncDocumentsStep this input w)); simpl result.
  - split; [|done].
    by rewrite startedBy_app, startedBy_syncDocumentsWorkflow.
  - split; [|done]. apply startedBy_syncDocumentsWorkflow.
Qed.
End BatchDriverClaims.

Lemma batch_driver_walks_250_witness :
  let run :=
    meilisearchIndexSyncJob Shop.rejection (Shop.paged 250) 3
      (Some (Shop.job None (Some 100%Z))) tt in
  length (Shop.source 250) = 250
  ∧ workflowRuns run
    = [Shop.windowInput 100 0; Shop.windowInput 100 100; Shop.windowInput 100 200]
  ∧ ∃ removed, result run = Returned (Completed 250 removed).
Proof.
  intros run.
  assert (Hsource : length (Shop.source 250) = 250).
  { unfold Shop.source. by rewrite length_map, length_seq. }
  split; [exact Hsource|].
  destruct (batch_driver_walks_250 Shop.rejection (Shop.paged 250) (Shop.source 250) "products"
              None 3 tt Hsource) as (Hruns & _ & Hresult & _).
  - discriminate.
  - intros limit offset w'. reflexivity.
  - apply writes_succeed_plain; [|done]. repeat constructor; done.
  - by apply deletes_succeed_plain.
  - lia.
  - split; [exact Hruns|exact Hresult].
Defined.

Lemma explicit_limit_single_sync_witness :
  workflowRuns
    (meilisearchIndexSyncJob Shop.rejection (Shop.paged 3) 0
       (Some (Shop.job (Some 2%Z) (Some 100%Z))) tt)
  = [ {| indexKey := "products"; filters := None; limit := Some 2%Z;
         offset := None; language := None |} ].
Proof.
  apply (explicit_limit_single_sync Shop.rejection (Shop.paged 3) 0
           (Shop.job (Some 2%Z) (Some 100%Z)) 2%Z tt);
    [discriminate|reflexivity|discriminate].
Defined.

(** C9. The test [if (limit)] takes the explicit limit 0 for no limit: the
    driver does not make the one sync it was asked for but enters the batch
    loop. Here, on a source of three documents with [batchSize = 2], it
    runs the single-index sync twice, with the batch size as limit, and
    never with the limit it was given. *)
Lemma explicit_limit_zero_enters_loop :
  workflowRuns
    (meilisearchIndexSyncJob Shop.rejection (Shop.paged 3) 5
       (Some (Shop.job (Some 0%Z) (Some 2%Z))) tt)
  = [Shop.windowInput 2 0; Shop.windowInput 2 2]
  ∧ workflowRuns
      (meilisearchIndexSyncJob Shop.rejection (Shop.paged 3) 5
         (Some (Shop.job (Some 0%Z) (Some 2%Z))) tt)
    ≠ [ {| indexKey := "products"; filters := None; limit := Some 0%Z;
           offset := None; language := None |} ].
Proof. split; [reflexivity|discriminate]. Qed.

Section Registry.
Context {W : Type}.
Implicit Types (this : MeiliSearchService W).

Lemma fold_left_push {A B} (f : A → B) (xs : list A) (acc : list B) :
  fold_left (λ acc x, acc ++ [f x]) xs acc = acc ++ map f xs.
Proof.
  revert acc. induction xs as [|x xs IH]; intros acc; simpl.
  - by rewrite app_nil_r.
  - by rewrite IH, <- app_assoc.
Qed.

(** The loop of the registry computes what the specification describes. *)
Lemma registry_loop this language :
  getIndexesWithFetchersStep this language = registrySpec this language.
Proof.
  unfold getIndexesWithFetchersStep, registrySpec, expandsPerLanguage,
    registryLanguages.
  cbv zeta.
  destruct (i18n (config_ this)) as [i|]; simpl from_option.
  - replace (0 <? length (languages i))%nat
      with (negb (bool_decide (languages i = []))) by (by destruct (languages i)).
    destruct (bool_decide (strategy i = separate_index)
              && negb (bool_decide (languages i = []))).
    + set (targets := match language with
                      | Some lang => if given language then [lang] else languages i
                      | None => languages i
                      end).
      assert (∀ (l : list (string * IndexConfig W)) acc,
        fold_left
          (λ indexes '(indexKey, indexConfig),
             if disabled indexConfig then indexes
             else if negb (bool_decide (is_Some (fetcher indexConfig)))
                  then indexes
                  else fold_left
                         (λ indexes lang,
                            indexes ++ [ {| iwf_indexKey := indexKey;
                                            iwf_type := type indexConfig;
                                            iwf_language := Some lang |} ])
                         targets indexes) l acc
        = acc ++ flat_map
                   (λ entry, map (λ lang, descriptor (Some lang) entry) targets)
                   (List.filter survives l)) as Hloop.
      { induction l as [|[k c] l IH]; intros acc; simpl.
        - by rewrite app_nil_r.
        - rewrite IH. unfold survives at 2. simpl.
          destruct (disabled c); simpl; [done|].
          destruct (bool_decide (is_Some (fetcher c))); simpl; [|done].
          by rewrite fold_left_push, <- app_assoc. }
      apply (Hloop _ []).
    + assert (∀ (l : list (string * IndexConfig W)) acc,
        fold_left
          (λ indexes '(indexKey, indexConfig),
             if disabled indexConfig then indexes
             else if negb (bool_decide (is_Some (fetcher indexConfig)))
                  then indexes
                  else indexes ++ [ {| iwf_indexKey := indexKey;
                                       iwf_type := type indexConfig;
                                       iwf_language := language |} ]) l acc
        = acc ++ map (descriptor language) (List.filter survives l)) as Hloop.
      { induction l as [|[k c] l IH]; intros acc; simpl.
        - by rewrite app_nil_r.
        - rewrite IH. unfold survives at 2. simpl.
          destruct (disabled c); simpl; [done|].
          destruct (bool_decide (is_Some (fetcher c))); simpl; [|done].
          by rewrite <- app_assoc. }
      apply (Hloop _ []).
  - assert (∀ (l : list (string * IndexConfig W)) acc,
      fold_left
        (λ indexes '(indexKey, indexConfig),
           if disabled indexConfig then indexes
           else if negb (bool_decide (is_Some (fetcher indexConfig)))
                then indexes
                else indexes ++ [ {| iwf_indexKey := indexKey;
                                     iwf_type := type indexConfig;
                                     iwf_language := language |} ]) l acc
      = acc ++ map (descriptor language) (List.filter survives l)) as Hloop.
    { induction l as [|[k c] l IH]; intros acc; simpl.
      - by rewrite app_nil_r.
      - rewrite IH. unfold survives at 2. simpl.
        destruct (disabled c); simpl; [done|].
        destruct (bool_decide (is_Some (fetcher c))); simpl; [|done].
        by rewrite <- app_assoc. }
    apply (Hloop _ []).
Qed.

End Registry.

(** ** Index keys as strings *)

Section Keys.
Lemma append_nil_l (s : string) : "" +:+ s = s.
Proof. reflexivity. Qed.

Lemma append_cons (c : Ascii.ascii) (a s : string) :
  String c a +:+ s = String c (a +:+ s).
Proof. reflexivity. Qed.

Lemma length_append (a b : string) :
  String.length (a +:+ b) = String.length a + String.length b.
Proof.
  induction a as [|c a IH]; [done|].
  rewrite append_cons. simpl. by rewrite IH.
Qed.

(** A suffix can be cancelled. *)
Lemma append_inj_r (a b s : string) : a +:+ s = b +:+ s → a = b.
Proof.
  revert b. induction a as [|c a IH]; intros [|d b] H.
  - done.
  - rewrite append_nil_l, append_cons in H.
    apply (f_equal String.length) in H.
    simpl in H. rewrite length_append in H. lia.
  - rewrite append_nil_l, append_cons in H.
    apply (f_equal String.length) in H.
    simpl in H. rewrite length_append in H. lia.
  - rewrite !append_cons in H. injection H as -> H. f_equal. by apply IH.
Qed.

Lemma underscore_free_append (a b : string) :
  underscore_free (a +:+ String (Ascii.ascii_of_nat 95) b) = false.
Proof.
  induction a as [|c a IH]; [done|].
  rewrite append_cons. simpl. rewrite IH. apply andb_false_r.
Qed.

Lemma suffixed_inj (base1 base2 lang1 lang2 : string) :
  underscore_free lang1 = true → underscore_free lang2 = true →
  base1 +:+ String (Ascii.ascii_of_nat 95) lang1
  = base2 +:+ String (Ascii.ascii_of_nat 95) lang2 →
  base1 = base2 ∧ lang1 = lang2.
Proof.
  intros H1 H2. revert base2.
  induction base1 as [|c base1 IH]; intros [|d base2] H;
    rewrite ?append_nil_l, ?append_cons in H.
  - by injection H as ->.
  - injection H as _ H. by rewrite H, underscore_free_append in H1.
  - injection H as _ H. by rewrite <- H, underscore_free_append in H2.
  - injection H as -> H. by destruct (IH _ H) as [-> ->].
Qed.

(** A key with a language suffix splits in one way only when the
    language holds no underscore. *)
Lemma suffixed_key_inj (base1 base2 lang1 lang2 : string) :
  underscore_free lang1 = true → underscore_free lang2 = true →
  base1 +:+ "_" +:+ lang1 = base2 +:+ "_" +:+ lang2 →
  base1 = base2 ∧ lang1 = lang2.
Proof. apply suffixed_inj. Qed.
End Keys.

Section PropertyOrder.
Context {A : Type}.
Implicit Types (entry : string * A) (entries written : list (string * A)).

Lemma placed_Permutation entry entries :
  placed entry entries ≡ₚ entry :: entries.
Proof.
  induction entries as [|first rest IH]; simpl; [done|].
  destruct (indexValue entry <? indexValue first)%N; [done|].
  rewrite IH. apply Permutation_swap.
Qed.

Lemma ascending_Permutation entries : ascending entries ≡ₚ entries.
Proof.
  induction entries as [|entry rest IH]; simpl; [done|].
  by rewrite placed_Permutation, IH.
Qed.

Lemma placed_sorted entry entries :
  StronglySorted (λ a b, (indexValue a ≤ indexValue b)%N) entries →
  StronglySorted (λ a b, (indexValue a ≤ indexValue b)%N) (placed entry entries).
Proof.
  induction 1 as [|first rest Hrest IH Hfirst]; simpl.
  - repeat constructor.
  - destruct (indexValue entry <? indexValue first)%N eqn:Hlt.
    + apply N.ltb_lt in Hlt. constructor; [by constructor|].
      constructor; [lia|].
      eapply Forall_impl; [exact Hfirst|]. intros x Hx. simpl in Hx. lia.
    + apply N.ltb_ge in Hlt. constructor; [exact IH|].
      rewrite placed_Permutation. by constructor.
Qed.

Lemma ascending_sorted entries :
  StronglySorted (λ a b, (indexValue a ≤ indexValue b)%N) (ascending entries).
Proof.
  induction entries as [|entry rest IH]; simpl; [constructor|].
  by apply placed_sorted.
Qed.

Lemma filter_complement_Permutation (P : string * A → bool) entries :
  List.filter P entries ++ List.filter (λ entry, negb (P entry)) entries
  ≡ₚ entries.
Proof.
  induction entries as [|entry rest IH]; simpl; [done|].
  destruct (P entry); simpl.
  - by rewrite IH.
  - by rewrite <- Permutation_middle, IH.
Qed.

(** [Object.entries] neither loses nor adds an entry. *)
Lemma Object_entries_Permutation written : Object_entries written ≡ₚ written.
Proof.
  unfold Object_entries, indexed, named.
  rewrite ascending_Permutation. apply filter_complement_Permutation.
Qed.

(** Without array indices among the keys, the order is the order written. *)
Lemma Object_entries_named written :
  Forall (λ entry, arrayIndex entry.1 = None) written →
  Object_entries written = written.
Proof.
  intros Hnamed.
  assert (indexed written = [] ∧ named written = written) as [Hnone Hall].
  { unfold indexed, named.
    induction Hnamed as [|entry rest Hentry _ [IHnone IHall]]; simpl; [done|].
    assert (bool_decide (is_Some (arrayIndex entry.1)) = false) as ->.
    { rewrite Hentry. apply bool_decide_eq_false_2. by intros [? ?]. }
    simpl. by rewrite IHnone, IHall. }
  unfold Object_entries. by rewrite Hnone, Hall.
Qed.
End PropertyOrder.

Section Descriptors.
Context {W : Type}.
Implicit Types (this : MeiliSearchService W).

(** Where a descriptor of the registry comes from. *)
Lemma registry_elem this language d :
  d ∈ getIndexesWithFetchersStep this language →
  ∃ entry,
    entry ∈ settings (config_ this)
    ∧ survives entry = true
    ∧ iwf_indexKey d = entry.1
    ∧ iwf_type d = type entry.2
    ∧ if expandsPerLanguage this
      then ∃ lang, lang ∈ registryLanguages this language
                   ∧ iwf_language d = Some lang
      else iwf_language d = language.
Proof.
  rewrite registry_loop. unfold registrySpec.
  destruct (expandsPerLanguage this); rewrite list_elem_of_In.
  - intros (entry & Hentry & Hd)%in_flat_map.
    apply filter_In in Hentry as [Hentry Hsurvives].
    apply in_map_iff in Hd as (lang & <- & Hlang).
    exists entry. rewrite list_elem_of_In. repeat split; try done.
    exists lang. by rewrite list_elem_of_In.
  - intros (entry & <- & Hentry)%in_map_iff.
    apply filter_In in Hentry as [Hentry Hsurvives].
    exists entry. rewrite list_elem_of_In. by repeat split.
Qed.

Lemma entries_agree this (entry1 entry2 : string * IndexConfig W) :
  distinct_keys this →
  entry1 ∈ settings (config_ this) → entry2 ∈ settings (config_ this) →
  entry1.1 = entry2.1 → entry1 = entry2.
Proof.
  intros Hkeys H1 H2 Heq. destruct entry1 as [k1 c1], entry2 as [k2 c2].
  simpl in Heq. subst k2.
  pose proof (assoc_NoDup _ _ _ Hkeys H1) as E1.
  pose proof (assoc_NoDup _ _ _ Hkeys H2) as E2.
  congruence.
Qed.

(** C8 (as amended). The registry yields no descriptor for a disabled index
    and none for an index without a fetcher; under [separate-index] with a
    non-empty language list, one descriptor per surviving index and
    language (only the requested language when one is given, that is, when
    it is a non-empty string); otherwise one descriptor per surviving
    index, with the caller's language as it is. The indexes come in the
    order in which [Object.entries] lists the configuration: the keys that
    are array indices first, in ascending numeric order, then the other
    keys in the order they were written; this is the order written when no
    key is an array index. Within an index the languages come in their
    order. *)
Theorem registry_in_enumeration_order this written language :
  settings (config_ this) = Object_entries written →
  (∃ numbers,
      numbers ≡ₚ indexed written
      ∧ StronglySorted (λ a b, (indexValue a ≤ indexValue b)%N) numbers
      ∧ getIndexesWithFetchersStep this language
        = descriptorsOf this language (numbers ++ named written))
  ∧ (Forall (λ entry, arrayIndex entry.1 = None) written →
     getIndexesWithFetchersStep this language
     = descriptorsOf this language written)
  ∧ ∀ d,
      d ∈ getIndexesWithFetchersStep this language →
      ∃ entry,
        entry ∈ written
        ∧ enabled entry.2 ≠ Some false
        ∧ is_Some (fetcher entry.2)
        ∧ iwf_indexKey d = entry.1
        ∧ iwf_type d = type entry.2.
Proof.
  intros Hsettings.
  assert (Hloop : getIndexesWithFetchersStep this language
                  = descriptorsOf this language (Object_entries written)).
  { rewrite registry_loop. unfold registrySpec, descriptorsOf.
    by rewrite Hsettings. }
  split; [|split].
  - exists (ascending (indexed written)).
    split; [apply ascending_Permutation|].
    split; [apply ascending_sorted|exact Hloop].
  - intros Hnamed. by rewrite Hloop, Object_entries_named.
  - intros d (entry & Hentry & Hsurvives & Hkey & Htype & _)%registry_elem.
    exists entry. unfold survives, disabled in Hsurvives.
    apply andb_true_iff in Hsurvives as [Hon Hfetcher].
    apply negb_true_iff, bool_decide_eq_false in Hon.
    apply bool_decide_eq_true in Hfetcher.
    rewrite Hsettings in Hentry.
    split; [|by repeat split].
    by rewrite <- (Object_entries_Permutation written).
Qed.

Lemma getLanguageIndexKey_separate this i18nConfig baseKey lang :
  i18n (config_ this) = Some i18nConfig →
  strategy i18nConfig = separate_index →
  getLanguageIndexKey this baseKey (Some lang)
  = if String.eqb lang "" then baseKey else baseKey +:+ "_" +:+ lang.
Proof.
  intros Hi Hs. unfold getLanguageIndexKey. rewrite Hi, Hs. simpl.
  by destruct (String.eqb lang "").
Qed.

(** C6 (as amended). Under the [separate-index] strategy, when every
    configured language code is non-empty and free of underscores, two
    distinct descriptors of the registry never have the same physical
    index key. *)
Theorem physical_keys_disjoint this language i18nConfig d1 d2 :
  distinct_keys this →
  i18n (config_ this) = Some i18nConfig →
  strategy i18nConfig = separate_index →
  Forall (λ lang, lang ≠ "" ∧ underscore_free lang = true) (languages i18nConfig) →
  d1 ∈ getIndexesWithFetchersStep this language →
  d2 ∈ getIndexesWithFetchersStep this language →
  d1 ≠ d2 →
  physicalKeyOf this d1 ≠ physicalKeyOf this d2.
Proof.
  intros Hkeys Hi Hs Hlangs
    (e1 & He1 & _ & Hk1 & Ht1 & Hl1)%registry_elem
    (e2 & He2 & _ & Hk2 & Ht2 & Hl2)%registry_elem Hne Hsame.
  apply Hne. clear Hne.
  assert (Hdone : iwf_indexKey d1 = iwf_indexKey d2 →
                  iwf_language d1 = iwf_language d2 → d1 = d2).
  { intros Hk Hl. rewrite Hk1, Hk2 in Hk.
    pose proof (entries_agree this e1 e2 Hkeys He1 He2 Hk) as ->.
    destruct d1, d2; simpl in *; congruence. }
  unfold physicalKeyOf in Hsame.
  rewrite Forall_forall in Hlangs.
  destruct (expandsPerLanguage this) eqn:Hexp.
  - destruct Hl1 as (l1 & Hin1 & Hl1), Hl2 as (l2 & Hin2 & Hl2).
    rewrite Hl1, Hl2 in Hsame.
    rewrite !(getLanguageIndexKey_separate this i18nConfig) in Hsame by done.
    unfold registryLanguages in Hin1, Hin2. rewrite Hi in Hin1, Hin2.
    simpl in Hin1, Hin2.
    destruct language as [requested|]; simpl in Hin1, Hin2.
    + destruct (String.eqb requested "") eqn:Hreq; simpl in Hin1, Hin2.
      * destruct (Hlangs l1 Hin1) as [Hn1 Hu1], (Hlangs l2 Hin2) as [Hn2 Hu2].
        apply String.eqb_neq in Hn1, Hn2. rewrite Hn1, Hn2 in Hsame.
        destruct (suffixed_key_inj _ _ _ _ Hu1 Hu2 Hsame) as [Hk ->].
        apply Hdone; congruence.
      * apply list_elem_of_singleton in Hin1 as ->.
        apply list_elem_of_singleton in Hin2 as ->.
        rewrite Hreq in Hsame. apply append_inj_r in Hsame.
        apply Hdone; congruence.
    + destruct (Hlangs l1 Hin1) as [Hn1 Hu1], (Hlangs l2 Hin2) as [Hn2 Hu2].
      apply String.eqb_neq in Hn1, Hn2. rewrite Hn1, Hn2 in Hsame.
      destruct (suffixed_key_inj _ _ _ _ Hu1 Hu2 Hsame) as [Hk ->].
      apply Hdone; congruence.
  - rewrite Hl1, Hl2 in Hsame. apply Hdone; [|congruence].
    destruct language as [requested|].
    + rewrite !(getLanguageIndexKey_separate this i18nConfig) in Hsame by done.
      destruct (String.eqb requested ""); [done|].
      by apply append_inj_r in Hsame.
    + unfold getLanguageIndexKey in Hsame. by rewrite Hi in Hsame.
Qed.

(** C7. An index configured with [enabled: false] yields no descriptor in
    the registry, and a single-index sync of its key returns
    [{documents: [], added: 0, deleted: 0}] without any call (no fetch,
    probe, write or delete) and without touching the world. *)
Theorem disabled_index_is_noop this key indexConfig :
  distinct_keys this →
  (key, indexConfig) ∈ settings (config_ this) →
  enabled indexConfig = Some false →
  (∀ language d,
      d ∈ getIndexesWithFetchersStep this language → iwf_indexKey d ≠ key)
  ∧ ∀ input w,
      indexKey input = key →
      syncDocumentsStep this input w
      = mkRun (Returned {| documents := []; added := 0; deleted := 0 |}) w [].
Proof.
  intros Hkeys Hin Hoff. split.
  - intros language d (entry & Hentry & Hsurvives & Hk & _)%registry_elem Hkey.
    assert (entry = (key, indexConfig)) as ->.
    { apply (entries_agree this); [done..|]. simpl. congruence. }
    unfold survives, disabled in Hsurvives. simpl in Hsurvives.
    by rewrite Hoff in Hsurvives.
  - intros input w Hk. unfold syncDocumentsStep, indexConfigOf.
    rewrite Hk, (assoc_NoDup _ _ _ Hkeys Hin).
    unfold disabled. by rewrite Hoff.
Qed.
End Descriptors.

Lemma registry_in_enumeration_order_witness :
  (∃ numbers,
      numbers ≡ₚ indexed Shop.numbered
      ∧ StronglySorted (λ a b, (indexValue a ≤ indexValue b)%N) numbers
      ∧ getIndexesWithFetchersStep Shop.shelves None
        = descriptorsOf Shop.shelves None (numbers ++ named Shop.numbered))
  ∧ map iwf_indexKey (getIndexesWithFetchersStep Shop.shelves None)
    = ["1"; "10"; "b"].
Proof.
  split; [|reflexivity].
  exact (proj1 (registry_in_enumeration_order Shop.shelves Shop.numbered None
                  eq_refl)).
Defined.

(** C8, counterexample: a configuration written with the key [b] before
    the keys [10] and [1] is enumerated as [1], [10], [b], and so are the
    descriptors of the registry: not in the order written. *)
Lemma registry_order_is_not_insertion_order :
  map fst Shop.numbered = ["b"; "10"; "1"]
  ∧ settings (config_ Shop.shelves) = Object_entries Shop.numbered
  ∧ map iwf_indexKey (getIndexesWithFetchersStep Shop.shelves None)
    = ["1"; "10"; "b"]
  ∧ getIndexesWithFetchersStep Shop.shelves None
    ≠ descriptorsOf Shop.shelves None Shop.numbered.
Proof.
  split; [reflexivity|]. split; [reflexivity|]. split; [reflexivity|].
  intros Heq. apply (f_equal (map iwf_indexKey)) in Heq. discriminate Heq.
Qed.

Lemma physical_keys_disjoint_witness :
  getIndexesWithFetchersStep Shop.bilingual None
  = [ {| iwf_indexKey := "products"; iwf_type := None; iwf_language := Some "en" |};
      {| iwf_indexKey := "products"; iwf_type := None; iwf_language := Some "fr" |} ]
  ∧ physicalKeyOf Shop.bilingual
      {| iwf_indexKey := "products"; iwf_type := None; iwf_language := Some "en" |}
    ≠ physicalKeyOf Shop.bilingual
        {| iwf_indexKey := "products"; iwf_type := None; iwf_language := Some "fr" |}.
Proof.
  split; [reflexivity|].
  apply (physical_keys_disjoint Shop.bilingual None
           {| strategy := separate_index; languages := ["en"; "fr"];
              defaultLanguage := "en" |}).
  - by compute_done.
  - reflexivity.
  - reflexivity.
  - repeat constructor; discriminate.
  - left.
  - right. left.
  - discriminate.
Defined.

(** C6, counterexample: with the index keys [a] and [a_b] and the languages
    [b_c] and [c], two distinct descriptors of the registry share the
    physical index key [a_b_c]. *)
Lemma physical_keys_collide :
  let d1 := {| iwf_indexKey := "a"; iwf_type := None; iwf_language := Some "b_c" |} in
  let d2 := {| iwf_indexKey := "a_b"; iwf_type := None; iwf_language := Some "c" |} in
  d1 ∈ getIndexesWithFetchersStep Shop.underscored None
  ∧ d2 ∈ getIndexesWithFetchersStep Shop.underscored None
  ∧ d1 ≠ d2
  ∧ physicalKeyOf Shop.underscored d1 = "a_b_c"
  ∧ physicalKeyOf Shop.underscored d2 = "a_b_c".
Proof.
  repeat split; try reflexivity; try discriminate.
  - left.
  - do 3 right. left.
Qed.

Lemma disabled_index_is_noop_witness :
  getIndexesWithFetchersStep Shop.switchedOff None
  = [ {| iwf_indexKey := "on"; iwf_type := None; iwf_language := None |} ]
  ∧ syncDocumentsStep Shop.switchedOff
      {| indexKey := "off"; filters := None; limit := None; offset := None;
         language := None |} tt
    = mkRun (Returned {| documents := []; added := 0; deleted := 0 |}) tt [].
Proof.
  split; [reflexivity|].
  destruct (disabled_index_is_noop Shop.switchedOff "off"
              {| type := None; enabled := Some false; fields := None;
                 transformer := None;
                 fetcher := Some (Shop.fetching [Shop.product "p1"]) |})
    as [_ Hsync].
  - by compute_done.
  - right. left.
  - reflexivity.
  - by apply Hsync.
Defined.

(** C1, at the failing input: under [separate-index] with default
    language [en], a single-index sync without a language probes the
    physical index [products] and writes to [products_en]. *)
Theorem sync_without_language_probes_and_writes_apart :
  let run :=
    syncDocumentsStep Shop.bilingual
      {| indexKey := "products"; filters := None; limit := None; offset := None;
         language := None |} tt in
  calls run
  = [ Fetch "products" (fetchOptions None None None None);
      Search "products" "" (membershipFilter [VStr "p1"]);
      AddDocuments "products_en" [Shop.product "p1"] ]
  ∧ omap addressed (calls run) = ["products"; "products_en"]
  ∧ omap addressed
      (calls (deleteDocuments Shop.bilingual "products" [VStr "p1"] None tt))
    = ["products"].
Proof. repeat split; reflexivity. Qed.

Section Properties.
Context {W : Type}.
Implicit Types (this : MeiliSearchService W).

Lemma fetchDocuments_builtin this indexKey indexConfig options w :
  indexConfigOf this indexKey = Some indexConfig →
  disabled indexConfig = false →
  fetcher indexConfig = None →
  type indexConfig = Some PRODUCTS →
  fetchDocuments this indexKey options w
  = invoke (Graph (productsQuery this options))
      (graph (container_ this) (productsQuery this options)) w.
Proof.
  intros Hcfg Hon Hfetch Htype. unfold fetchDocuments, getDocumentFetcher.
  rewrite Hcfg, Hon, Hfetch, Htype. by rewrite bool_decide_eq_true_2.
Qed.

(** C10 (as amended). The built-in products fetcher issues exactly one
    catalog query; it maps [limit]/[offset] to [take]/[skip], keeps every
    filter of the caller, and constrains [status] to [published] unless
    the caller's filters carry a [status] of their own, which then
    prevails. *)
Theorem builtin_fetcher_query this indexKey indexConfig options w :
  indexConfigOf this indexKey = Some indexConfig →
  disabled indexConfig = false →
  fetcher indexConfig = None →
  type indexConfig = Some PRODUCTS →
  ∃ query,
    calls (fetchDocuments this indexKey options w) = [Graph query]
    ∧ gq_take query = fo_limit options
    ∧ gq_skip query = fo_offset options
    ∧ (∀ key v, default ∅ (fo_filters options) !! key = Some v →
                gq_filters query !! key = Some v)
    ∧ (default ∅ (fo_filters options) !! "status" = None →
       gq_filters query !! "status" = Some (VStr "published")).
Proof.
  intros Hcfg Hon Hfetch Htype. exists (productsQuery this options).
  rewrite (fetchDocuments_builtin _ _ _ _ _ Hcfg Hon Hfetch Htype).
  rewrite calls_invoke. repeat split; simpl.
  - intros key v Hkey. by apply lookup_union_Some_l.
  - intros Hnone. rewrite lookup_union_r by done.
    by rewrite lookup_singleton_eq.
Qed.
End Properties.

Lemma builtin_fetcher_query_witness :
  ∃ query,
    calls (fetchDocuments Shop.builtin "products"
             (fetchOptions (Some {[ "handle" := VStr "shirt" ]}) (Some 20%Z) (Some 40%Z) None) tt)
      = [Graph query]
    ∧ gq_take query = Some 20%Z
    ∧ gq_skip query = Some 40%Z
    ∧ gq_filters query !! "handle" = Some (VStr "shirt")
    ∧ gq_filters query !! "status" = Some (VStr "published").
Proof.
  destruct (builtin_fetcher_query Shop.builtin "products"
              {| type := Some PRODUCTS; enabled := None;
                 fields := Some ["id"; "title"];
                 transformer := None; fetcher := None |}
              (fetchOptions (Some {[ "handle" := VStr "shirt" ]}) (Some 20%Z) (Some 40%Z) None) tt
              eq_refl eq_refl eq_refl eq_refl)
    as (query & Hcalls & Htake & Hskip & Hkeep & Hstatus).
  exists query. repeat split; try assumption.
  - apply Hkeep. reflexivity.
  - apply Hstatus. reflexivity.
Defined.

(** C10, counterexample: a caller whose filters ask for drafts gets the
    catalog queried for drafts: the query does not carry
    [status = published]. *)
Lemma builtin_fetcher_status_overridden :
  ∃ query,
    calls (fetchDocuments Shop.builtin "products"
             (fetchOptions (Some {[ "status" := VStr "draft" ]}) (Some 20%Z) None None) tt)
      = [Graph query]
    ∧ gq_filters query !! "status" = Some (VStr "draft")
    ∧ gq_filters query !! "status" ≠ Some (VStr "published").
Proof.
  eexists. split; [reflexivity|]. split; [reflexivity|]. discriminate.
Qed.

(** ** Which physical index an operation addresses *)

Section Addressing.
Context {W : Type}.
Implicit Types (this : MeiliSearchService W).

Lemma Forall_calls_app_bind {A B} (P : Call → Prop) (m : IO W A)
    (k : A → IO W B) w :
  Forall P (calls (m w)) →
  (∀ a, result (m w) = Returned a → Forall P (calls (k a (world (m w))))) →
  Forall P (calls (bind m k w)).
Proof.
  intros Hm Hk. rewrite calls_bind.
  destruct (result (m w)) as [a|e]; [|done].
  apply Forall_app. split; [done|by apply Hk].
Qed.

Lemma unaddressed_getTransformedDocuments this indexKey documents options w :
  Forall (λ c, addressed c = None)
    (calls (getTransformedDocuments this indexKey documents options w)).
Proof. by apply Forall_calls_getTransformedDocuments. Qed.

Lemma addressed_weaken (key : string) (cs : list Call) :
  Forall (λ c, addressed c = None) cs →
  Forall (λ c, ∀ k, addressed c = Some k → k = key) cs.
Proof. intros H. eapply Forall_impl; [exact H|]. intros c Hc k. by rewrite Hc. Qed.

(** The write of [addDocuments] goes to one key, given by the strategy, the
    language and the default language. *)
Lemma addressed_addDocuments this indexKey documents language w :
  Forall
    (λ c, ∀ key, addressed c = Some key →
       key = match i18n (config_ this) with
             | Some i18nConfig =>
                 if bool_decide (strategy i18nConfig = separate_index) then
                   getLanguageIndexKey this indexKey
                     (languageOr language (defaultLanguage i18nConfig))
                 else indexKey
             | None => indexKey
             end)
    (calls (addDocuments this indexKey documents language w)).
Proof.
  unfold addDocuments.
  destruct (i18n (config_ this)) as [i18nConfig|];
    [destruct (bool_decide (strategy i18nConfig = separate_index))|];
    (apply Forall_calls_bind;
     [apply addressed_weaken, unaddressed_getTransformedDocuments|]);
    intros out w1; rewrite calls_invoke; repeat constructor;
    by intros key [= <-].
Qed.

Lemma addressed_probe this indexKey language ids w :
  Forall (λ c, ∀ key, addressed c = Some key →
                      key = getLanguageIndexKey this indexKey language)
    (calls (probe this indexKey language ids w)).
Proof.
  unfold probe. case_match; [|constructor].
  apply Forall_calls_try_catch; [|constructor].
  apply Forall_calls_bind; [|constructor].
  unfold search. rewrite calls_invoke. repeat constructor. by intros key [= <-].
Qed.

(** X1. When the language is given, or the strategy is not
    [separate-index], every call a single-index sync makes to the search
    engine (probe, write, delete) addresses the same physical index,
    [getLanguageIndexKey(indexKey, language)]. *)
Theorem sync_addresses_one_index this input w :
  (∀ i18nConfig,
      i18n (config_ this) = Some i18nConfig →
      strategy i18nConfig = separate_index →
      given (language input) = true) →
  Forall (λ c, ∀ key, addressed c = Some key →
                      key = getLanguageIndexKey this (indexKey input) (language input))
    (calls (syncDocumentsStep this input w)).
Proof.
  intros Hgiven. set (target := getLanguageIndexKey _ _ _).
  assert (Hwrite : ∀ documents w',
    Forall (λ c, ∀ key, addressed c = Some key → key = target)
      (calls (addDocuments this (indexKey input) documents (language input) w'))).
  { intros documents w'.
    eapply Forall_impl; [apply addressed_addDocuments|].
    intros c Hc key Hkey. rewrite (Hc key Hkey). unfold target.
    destruct (i18n (config_ this)) as [i18nConfig|] eqn:Hi.
    - destruct (bool_decide (strategy i18nConfig = separate_index)) eqn:Hs.
      + apply bool_decide_eq_true in Hs.
        unfold languageOr. by rewrite (Hgiven i18nConfig eq_refl Hs).
      + unfold getLanguageIndexKey. rewrite Hi, Hs.
        by destruct (language input).
    - unfold getLanguageIndexKey. by rewrite Hi. }
  rewrite syncDocumentsStep_reconcile.
  repeat case_match; try constructor.
  apply Forall_calls_bind.
  { apply addressed_weaken. by apply Forall_calls_fetchDocuments. }
  intros documents w1. case_match; [constructor|]. unfold reconcile.
  apply Forall_calls_bind; [apply addressed_probe|]. intros existing w2.
  apply Forall_calls_bind; [apply Hwrite|]. intros _ w3.
  apply Forall_calls_bind; [|constructor].
  case_match; [|constructor].
  unfold deleteDocuments. rewrite calls_invoke. repeat constructor.
  by intros key [= <-].
Qed.

(** X2. Under [separate-index], without a language and with a non-empty
    default language, [addDocuments] writes to
    [indexKey + "_" + defaultLanguage], while [search] and
    [deleteDocuments] address [indexKey] itself. *)
Theorem write_falls_back_to_default_language this i18nConfig indexKey documents
    language query filter ids w :
  i18n (config_ this) = Some i18nConfig →
  strategy i18nConfig = separate_index →
  given language = false →
  defaultLanguage i18nConfig ≠ "" →
  Forall (λ c, ∀ key, addressed c = Some key →
                      key = indexKey +:+ "_" +:+ defaultLanguage i18nConfig)
    (calls (addDocuments this indexKey documents language w))
  ∧ calls (search this indexKey query filter language w)
    = [Search indexKey query filter]
  ∧ calls (deleteDocuments this indexKey ids language w)
    = [DeleteDocuments indexKey ids].
Proof.
  intros Hi Hs Hnone Hdefault.
  assert (Hbase : getLanguageIndexKey this indexKey language = indexKey).
  { unfold getLanguageIndexKey. rewrite Hi, Hnone.
    destruct language; [|done]. by rewrite orb_true_r. }
  split; [|split].
  - eapply Forall_impl; [apply addressed_addDocuments|].
    intros c Hc key Hkey. rewrite (Hc key Hkey), Hi.
    rewrite bool_decide_eq_true_2 by done.
    unfold languageOr. rewrite Hnone.
    unfold getLanguageIndexKey. rewrite Hi, bool_decide_eq_true_2 by done.
    simpl. apply String.eqb_neq in Hdefault. by rewrite Hdefault.
  - unfold search. by rewrite calls_invoke, Hbase.
  - unfold deleteDocuments. by rewrite calls_invoke, Hbase.
Qed.
End Addressing.

Lemma sync_addresses_one_index_witness :
  Forall (λ c, ∀ key, addressed c = Some key → key = "products_fr")
    (calls (syncDocumentsStep Shop.bilingual
              {| indexKey := "products"; filters := None; limit := None;
                 offset := None; language := Some "fr" |} tt)).
Proof.
  apply (sync_addresses_one_index Shop.bilingual
           {| indexKey := "products"; filters := None; limit := None;
              offset := None; language := Some "fr" |} tt).
  intros i18nConfig _ _. reflexivity.
Defined.

Lemma write_falls_back_to_default_language_witness :
  Forall (λ c, ∀ key, addressed c = Some key → key = "products_en")
    (calls (addDocuments Shop.bilingual "products" [Shop.product "p1"] None tt))
  ∧ calls (search Shop.bilingual "products" "" "id IN []" None tt)
    = [Search "products" "" "id IN []"]
  ∧ calls (deleteDocuments Shop.bilingual "products" [VStr "p1"] None tt)
    = [DeleteDocuments "products" [VStr "p1"]].
Proof.
  apply (write_falls_back_to_default_language Shop.bilingual
           {| strategy := separate_index; languages := ["en"; "fr"];
              defaultLanguage := "en" |}
           "products" [Shop.product "p1"] None "" "id IN []" [VStr "p1"] tt);
    [reflexivity..|discriminate].
Defined.

(** ** Fields and index listings *)

Section Fields.
Context {W : Type}.
Implicit Types (this : MeiliSearchService W).

Lemma set_add_spec (seen : list string) (field x : string) :
  x ∈ set_add seen field ↔ x ∈ seen ∨ x = field.
Proof.
  unfold set_add. case_bool_decide as Hin.
  - split; [by left|]. intros [?| ->]; done.
  - rewrite elem_of_app, list_elem_of_singleton. done.
Qed.

Lemma set_add_NoDup (seen : list string) (field : string) :
  NoDup seen → NoDup (set_add seen field).
Proof.
  intros Hnd. unfold set_add. case_bool_decide as Hin; [done|].
  apply NoDup_app. split; [done|]. split; [|apply NoDup_singleton].
  intros x Hx ->%list_elem_of_singleton. done.
Qed.

Lemma fold_set_add_spec (fs seen : list string) (x : string) :
  x ∈ fold_left set_add fs seen ↔ x ∈ seen ∨ x ∈ fs.
Proof.
  revert seen. induction fs as [|f fs IH]; intros seen; simpl.
  - rewrite elem_of_nil. tauto.
  - rewrite IH, set_add_spec, elem_of_cons. tauto.
Qed.

Lemma fold_set_add_NoDup (fs seen : list string) :
  NoDup seen → NoDup (fold_left set_add fs seen).
Proof.
  revert seen. induction fs as [|f fs IH]; intros seen Hnd; simpl; [done|].
  by apply IH, set_add_NoDup.
Qed.

Lemma collect_fields_spec (configs : list (IndexConfig W)) (seen : list string) x :
  x ∈ fold_left
        (λ seen config,
           match fields config with
           | Some fs => fold_left set_add fs seen
           | None => seen
           end) configs seen
  ↔ x ∈ seen ∨ ∃ config fs, config ∈ configs ∧ fields config = Some fs ∧ x ∈ fs.
Proof.
  revert seen. induction configs as [|config configs IH]; intros seen; simpl.
  - split; [by left|]. intros [?|(c & fs & Hc & _)]; [done|].
    by apply elem_of_nil in Hc.
  - rewrite IH. destruct (fields config) as [fs0|] eqn:Hf.
    + rewrite fold_set_add_spec. split.
      * intros [[?|?]|(c & fs & Hc & Hfs & Hx)]; [by left| |].
        -- right. exists config, fs0. split; [left|done].
        -- right. exists c, fs. split; [by right|done].
      * intros [?|(c & fs & Hc & Hfs & Hx)]; [by left; left|].
        apply elem_of_cons in Hc as [->|Hc].
        -- left. right. congruence.
        -- right. by exists c, fs.
    + split.
      * intros [?|(c & fs & Hc & Hfs & Hx)]; [by left|].
        right. exists c, fs. split; [by right|done].
      * intros [?|(c & fs & Hc & Hfs & Hx)]; [by left|].
        apply elem_of_cons in Hc as [->|Hc]; [congruence|].
        right. by exists c, fs.
Qed.

Lemma collect_fields_NoDup (configs : list (IndexConfig W)) (seen : list string) :
  NoDup seen →
  NoDup (fold_left
           (λ seen config,
              match fields config with
              | Some fs => fold_left set_add fs seen
              | None => seen
              end) configs seen).
Proof.
  revert seen. induction configs as [|config configs IH]; intros seen Hnd;
    simpl; [done|].
  apply IH. destruct (fields config); [by apply fold_set_add_NoDup|done].
Qed.

(** A field declared by an enabled index of the type is returned. *)
Lemma declared_in_getFieldsForType this (type_ : string) entry fs x :
  entry ∈ settings (config_ this) →
  type entry.2 = Some type_ →
  enabled entry.2 ≠ Some false →
  fields entry.2 = Some fs →
  x ∈ fs →
  x ∈ getFieldsForType this type_.
Proof.
  intros Hentry Ht Hon Hfs Hx. unfold getFieldsForType.
  set (collected := fold_left _ _ []).
  assert (x ∈ collected) as Hin.
  { unfold collected. apply collect_fields_spec. right.
    exists entry.2, fs. split; [|done].
    apply list_elem_of_In, filter_In. split.
    - apply in_map. by apply list_elem_of_In.
    - apply andb_true_iff. split; [by apply bool_decide_eq_true|].
      apply negb_true_iff. by apply bool_decide_eq_false. }
  destruct collected; [by apply elem_of_nil in Hin|done].
Qed.

(** X3. [getFieldsForType] never returns an empty list and never a field
    twice. It returns exactly the fields that the enabled indexes of the
    type declare, and [["*"]] when they declare none. *)
Theorem getFieldsForType_fields this (type_ : string) :
  let declared (x : string) :=
    ∃ entry fs,
      entry ∈ settings (config_ this)
      ∧ type entry.2 = Some type_
      ∧ enabled entry.2 ≠ Some false
      ∧ fields entry.2 = Some fs
      ∧ x ∈ fs in
  getFieldsForType this type_ ≠ []
  ∧ NoDup (getFieldsForType this type_)
  ∧ ((∃ x, declared x) → ∀ x, x ∈ getFieldsForType this type_ ↔ declared x)
  ∧ ((∀ x, ¬ declared x) → getFieldsForType this type_ = ["*"]).
Proof.
  intros declared. unfold getFieldsForType.
  set (selected := List.filter _ _).
  set (collected := fold_left _ selected []).
  assert (Hspec : ∀ x, x ∈ collected ↔ declared x).
  { intros x. unfold collected. rewrite collect_fields_spec.
    rewrite elem_of_nil. unfold declared, selected. split.
    - intros [[]|(config & fs & Hc & Hfs & Hx)].
      apply list_elem_of_In, filter_In in Hc as [Hc Hsel].
      apply in_map_iff in Hc as (entry & <- & Hentry).
      apply andb_true_iff in Hsel as [Ht Hon].
      apply bool_decide_eq_true in Ht.
      apply negb_true_iff, bool_decide_eq_false in Hon.
      exists entry, fs. by rewrite list_elem_of_In.
    - intros (entry & fs & Hentry & Ht & Hon & Hfs & Hx). right.
      exists entry.2, fs. split; [|done].
      apply list_elem_of_In, filter_In. split.
      + apply in_map. by apply list_elem_of_In.
      + apply andb_true_iff. split; [by apply bool_decide_eq_true|].
        apply negb_true_iff. by apply bool_decide_eq_false. }
  assert (Hnd : NoDup collected).
  { apply collect_fields_NoDup. constructor. }
  destruct collected as [|first rest] eqn:Hcollected; simpl.
  - split; [done|]. split; [apply NoDup_singleton|]. split; [|done].
    intros [x Hx]. apply Hspec in Hx. by apply elem_of_nil in Hx.
  - split; [done|]. split; [done|]. split; [by intros _|].
    intros Hnone. exfalso. apply (Hnone first), Hspec. left.
Qed.

(** X4. For an enabled index that declares its fields, [getFieldsForIndex]
    returns them as they are, and each of them is among the fields
    [getFieldsForType] returns for the type of the index. *)
Theorem getFieldsForIndex_within_type this indexKey indexConfig type_ fs :
  indexConfigOf this indexKey = Some indexConfig →
  enabled indexConfig ≠ Some false →
  type indexConfig = Some type_ →
  fields indexConfig = Some fs →
  getFieldsForIndex this indexKey = fs
  ∧ ∀ x, x ∈ fs → x ∈ getFieldsForType this type_.
Proof.
  intros Hcfg Hon Ht Hfs. split.
  - unfold getFieldsForIndex, disabled. rewrite Hcfg.
    by rewrite bool_decide_eq_false_2, Hfs.
  - intros x Hx.
    apply (declared_in_getFieldsForType this type_ (indexKey, indexConfig) fs);
      [by apply assoc_Some|done..].
Qed.

(** Where a key of [getIndexesByType] comes from when there is one index
    per base key. *)
Lemma baseIndexes_elem this (type_ : string) (entry : string * IndexConfig W) :
  entry ∈ settings (config_ this) →
  type entry.2 = Some type_ →
  disabled entry.2 = false →
  entry.1 ∈ map fst
              (List.filter
                 (λ entry, bool_decide (type entry.2 = Some type_)
                           && negb (disabled entry.2))
                 (settings (config_ this))).
Proof.
  intros Hentry Ht Hon. apply list_elem_of_In, in_map, filter_In.
  split; [by apply list_elem_of_In|].
  by rewrite Hon, bool_decide_eq_true_2.
Qed.

(** X5. Every physical index the registry hands to the bulk sync is one
    that [getIndexesByType] lists for the type of the index, as long as the
    language list is not empty under [separate-index] and a requested
    language is one of the configured ones. *)
Theorem registry_keys_listed_by_type this language d type_ :
  (∀ i18nConfig,
      i18n (config_ this) = Some i18nConfig →
      strategy i18nConfig = separate_index →
      languages i18nConfig ≠ []
      ∧ ∀ requested, language = Some requested → requested ≠ "" →
                     requested ∈ languages i18nConfig) →
  d ∈ getIndexesWithFetchersStep this language →
  iwf_type d = Some type_ →
  physicalKeyOf this d ∈ getIndexesByType this type_.
Proof.
  intros Hlangs (entry & Hentry & Hsurvives & Hkey & Htype & Hlang)%registry_elem Ht.
  unfold survives in Hsurvives. apply andb_true_iff in Hsurvives as [Hon _].
  apply negb_true_iff in Hon. rewrite Htype in Ht.
  pose proof (baseIndexes_elem this type_ entry Hentry Ht Hon) as Hbase.
  unfold physicalKeyOf, getIndexesByType. rewrite Hkey.
  unfold expandsPerLanguage, registryLanguages in Hlang.
  destruct (i18n (config_ this)) as [i18nConfig|] eqn:Hi; simpl in Hlang.
  - destruct (bool_decide (strategy i18nConfig = separate_index)) eqn:Hs.
    + apply bool_decide_eq_true in Hs.
      destruct (Hlangs i18nConfig eq_refl Hs) as [Hnonempty Hrequested].
      rewrite bool_decide_eq_false_2 in Hlang by done. simpl in Hlang.
      destruct Hlang as (lang & Hin & ->).
      apply list_elem_of_In, in_flat_map. exists entry.1.
      split; [by apply list_elem_of_In|].
      apply in_map_iff. exists lang. split; [done|]. apply list_elem_of_In.
      destruct language as [requested|]; [|done]. simpl in Hin.
      destruct (String.eqb requested "") eqn:Hreq; simpl in Hin; [done|].
      apply list_elem_of_singleton in Hin as ->.
      apply Hrequested; [done|]. by apply String.eqb_neq.
    + simpl in Hlang. rewrite Hlang. unfold getLanguageIndexKey.
      rewrite Hi, Hs. by destruct language.
  - rewrite Hlang. unfold getLanguageIndexKey. by rewrite Hi.
Qed.
End Fields.

Lemma getFieldsForIndex_within_type_witness :
  getFieldsForIndex Shop.builtin "products" = ["id"; "title"]
  ∧ ∀ x, x ∈ ["id"; "title"] → x ∈ getFieldsForType Shop.builtin PRODUCTS.
Proof.
  apply (getFieldsForIndex_within_type Shop.builtin "products"
           {| type := Some PRODUCTS; enabled := None;
              fields := Some ["id"; "title"];
              transformer := None; fetcher := None |});
    [reflexivity|discriminate|reflexivity|reflexivity].
Defined.

Lemma registry_keys_listed_by_type_witness :
  getIndexesByType Depot.stocked PRODUCTS = ["products_en"; "products_fr"]
  ∧ ∀ d, d ∈ getIndexesWithFetchersStep Depot.stocked (Some "fr") →
         iwf_type d = Some PRODUCTS →
         physicalKeyOf Depot.stocked d ∈ getIndexesByType Depot.stocked PRODUCTS.
Proof.
  split; [reflexivity|]. intros d Hd Ht.
  apply (registry_keys_listed_by_type Depot.stocked (Some "fr") d PRODUCTS);
    [|done..].
  intros i18nConfig [= <-] _. split; [done|].
  intros requested [= <-] _. right. left.
Defined.

(** ** Transforming, writing and the order of the calls of a sync *)

Section Writing.
Context {W : Type}.
Implicit Types (this : MeiliSearchService W).

(** A [for_each] of recorded calls makes them in order, up to the first one
    that throws, and returns one value per element. *)
Lemma for_each_invoke {A B} (c : A → Call) (capability : A → W → outcome B * W)
    (xs : list A) w :
  let run := for_each (λ x, invoke (c x) (capability x)) xs w in
  (∃ n, calls run = map c (take n xs))
  ∧ ∀ ys, result run = Returned ys →
          length ys = length xs ∧ calls run = map c xs.
Proof.
  revert w. induction xs as [|x xs IH]; intros w; simpl.
  - split; [by exists 0|]. by intros ys [= <-].
  - rewrite calls_bind, result_bind, invoke_run. simpl.
    destruct (capability x w) as [[y|e] w1]; simpl.
    + rewrite calls_bind, result_bind.
      destruct (IH w1) as [[n Hn] Hall].
      destruct (result (for_each _ xs w1)) as [ys|e] eqn:Hres; simpl.
      * destruct (Hall ys eq_refl) as [Hlen Hcalls]. rewrite app_nil_r.
        split; [exists (S (length xs)); simpl; by rewrite firstn_all, Hcalls|].
        intros ? [= <-]. simpl. by rewrite Hlen, Hcalls.
      * split; [|done]. exists (S n). simpl. by rewrite Hn.
    + split; [|done]. by exists 1.
Qed.

(** X6. [getTransformedDocuments] calls a transformer at most once per
    document, in the order of the documents: its calls are the
    transformations of a prefix of them. When it returns it returns as many
    documents as it was given; and without a custom transformer, outside the
    products type, it returns the documents themselves and calls nothing. *)
Theorem getTransformedDocuments_shape this indexKey documents options w :
  let run := getTransformedDocuments this indexKey documents options w in
  (∃ n, calls run = map (Transform indexKey) (take n documents))
  ∧ (∀ out, result run = Returned out → length out = length documents)
  ∧ (indexConfigOf this indexKey ≫= transformer = None →
     indexConfigOf this indexKey ≫= type ≠ Some PRODUCTS →
     run = ret documents w).
Proof.
  unfold getTransformedDocuments. cbv zeta.
  destruct (length documents =? 0)%nat eqn:Hlen.
  { apply length_eqb_nil in Hlen as ->.
    split; [by exists 0|]. split; [by intros out [= <-]|done]. }
  assert (Hrun : ∀ capability : Doc → W → outcome Doc * W,
    let run := for_each (λ doc, invoke (Transform indexKey doc) (capability doc))
                 documents w in
    (∃ n, calls run = map (Transform indexKey) (take n documents))
    ∧ ∀ out, result run = Returned out → length out = length documents).
  { intros capability.
    destruct (for_each_invoke (Transform indexKey) capability documents w)
      as [Hcalls Hres].
    split; [exact Hcalls|]. intros out Hout. by destruct (Hres out Hout). }
  assert (Hsame : ∀ run : Run W (list Doc),
    run = ret documents w →
    (∃ n, calls run = map (Transform indexKey) (take n documents))
    ∧ ∀ out, result run = Returned out → length out = length documents).
  { intros run ->. split; [by exists 0|]. by intros out [= <-]. }
  destruct (indexConfigOf this indexKey) as [indexConfig|]; simpl.
  - destruct (transformer indexConfig) as [custom|].
    + destruct (Hrun (λ doc, custom doc
                        (bool_decide (type indexConfig = Some PRODUCTS)) options))
        as [Hcalls Hres].
      by repeat split.
    + case_bool_decide as Hproducts.
      * destruct (Hrun (λ doc w, (transformProduct this doc options, w)))
          as [Hcalls Hres].
        by repeat split.
      * destruct (Hsame _ eq_refl) as [Hcalls Hres]. by repeat split.
  - destruct (Hsame _ eq_refl) as [Hcalls Hres]. by repeat split.
Qed.

(** The calls of [addDocuments]: the transformations, then the one write
    when they all went through. *)
Lemma addDocuments_calls this indexKey documents language w :
  let transformed :=
    getTransformedDocuments this indexKey documents
      {| to_i18n := i18n (config_ this); to_language := language |} w in
  match result transformed with
  | Threw e =>
      result (addDocuments this indexKey documents language w) = Threw e
      ∧ calls (addDocuments this indexKey documents language w)
        = calls transformed
  | Returned out =>
      ∃ physicalKey,
        calls (addDocuments this indexKey documents language w)
        = calls transformed ++ [AddDocuments physicalKey out]
        ∧ result (addDocuments this indexKey documents language w)
          = (index_addDocuments (client_ this) physicalKey out
               (world transformed)).1
  end.
Proof.
  intros transformed. unfold addDocuments. fold transformed.
  destruct (i18n (config_ this)) as [i18nConfig|];
    [destruct (bool_decide (strategy i18nConfig = separate_index))|];
    rewrite calls_bind, result_bind; fold transformed;
    (destruct (result transformed) as [out|e]; [|done]);
    eexists; rewrite invoke_run; simpl; done.
Qed.

(** X7. A write is all or nothing: when a transformer throws,
    [addDocuments] throws the same and issues no write; otherwise it issues
    exactly one [addDocuments] call to the client, after the last
    transformation and with all the transformed documents, also when the
    list of documents is empty. The transformations themselves address no
    index. *)
Theorem addDocuments_single_write this indexKey documents language w :
  let transformed :=
    getTransformedDocuments this indexKey documents
      {| to_i18n := i18n (config_ this); to_language := language |} w in
  let run := addDocuments this indexKey documents language w in
  Forall (λ c, addressed c = None) (calls transformed)
  ∧ match result transformed with
    | Threw e => result run = Threw e ∧ omap addressed (calls run) = []
    | Returned out =>
        ∃ physicalKey,
          calls run = calls transformed ++ [AddDocuments physicalKey out]
          ∧ omap addressed (calls run) = [physicalKey]
    end.
Proof.
  intros transformed run.
  pose proof (unaddressed_getTransformedDocuments this indexKey documents
                {| to_i18n := i18n (config_ this); to_language := language |} w)
    as Hnone.
  fold transformed in Hnone.
  assert (Hquiet : omap addressed (calls transformed) = []).
  { induction Hnone as [|c cs Hc _ IH]; [done|]. simpl. by rewrite Hc. }
  split; [exact Hnone|].
  pose proof (addDocuments_calls this indexKey documents language w) as Hcalls.
  simpl in Hcalls. fold transformed run in Hcalls.
  destruct (result transformed) as [out|e].
  - destruct Hcalls as (physicalKey & Hcalls & _). exists physicalKey.
    split; [done|]. by rewrite Hcalls, omap_app, Hquiet.
  - destruct Hcalls as [Hres Hcalls]. split; [done|]. by rewrite Hcalls.
Qed.
End Writing.

Section SyncShape.
Context {W : Type}.
Implicit Types (this : MeiliSearchService W).

(** What [reconcile] returns, when it returns. *)
Lemma reconcile_result this indexKey language documents w r :
  result (reconcile this indexKey language documents w) = Returned r →
  ∃ existing,
    result (probe this indexKey language (documentIdsOf documents) w)
      = Returned existing
    ∧ r = {| documents := documents;
             added := length documents;
             deleted := length (documentsToDeleteOf existing
                                  (documentIdsOf documents)) |}.
Proof.
  unfold reconcile. cbv zeta. rewrite result_bind.
  destruct (probe_returns this indexKey language (documentIdsOf documents) w)
    as [existing Hprobe].
  rewrite Hprobe, result_bind.
  destruct (result (addDocuments _ _ _ _ _)); [|done].
  rewrite result_bind.
  destruct (0 <? length _)%nat;
    [destruct (result (deleteDocuments _ _ _ _ _)); [|done]|];
    intros [= <-]; by exists existing.
Qed.

Lemma documentsToDeleteOf_fresh (existing ids : list value) :
  Forall (λ id, id ∉ ids) (documentsToDeleteOf existing ids).
Proof.
  unfold documentsToDeleteOf, includes. apply Forall_forall. intros id Hid.
  apply list_elem_of_In, filter_In in Hid as [_ Hid].
  apply negb_true_iff in Hid. by apply bool_decide_eq_false in Hid.
Qed.

Lemma documentsToDeleteOf_reported (existing ids : list value) :
  Forall (λ id, id ∈ existing) (documentsToDeleteOf existing ids).
Proof.
  unfold documentsToDeleteOf. apply Forall_forall. intros id Hid.
  apply list_elem_of_In, filter_In in Hid as [Hid _]. by apply list_elem_of_In.
Qed.

(** The calls of [reconcile]: everything but a delete, then at most one
    delete, which comes right after the write. *)
Lemma reconcile_calls this indexKey language documents w :
  ∃ before deletes,
    calls (reconcile this indexKey language documents w) = before ++ deletes
    ∧ Forall (λ c, is_delete c = false) before
    ∧ (deletes = []
       ∨ ∃ ids physicalKey written existing,
           deletes = [DeleteDocuments
                        (getLanguageIndexKey this indexKey language) ids]
           ∧ ids ≠ []
           ∧ last before = Some (AddDocuments physicalKey written)
           ∧ result (probe this indexKey language (documentIdsOf documents) w)
             = Returned existing
           ∧ ids = documentsToDeleteOf existing (documentIdsOf documents)).
Proof.
  unfold reconcile. cbv zeta.
  destruct (probe_returns this indexKey language (documentIdsOf documents) w)
    as [existing Hprobe].
  pose proof (Forall_calls_probe (λ c, is_delete c = false) this indexKey
                language (documentIdsOf documents) w (λ _ _ _, eq_refl)) as Hpc.
  rewrite calls_bind, Hprobe, calls_bind.
  set (probed := probe this indexKey language (documentIdsOf documents) w) in *.
  set (ids := documentsToDeleteOf existing (documentIdsOf documents)).
  set (write := addDocuments this indexKey documents language (world probed)).
  pose proof (Forall_calls_addDocuments (λ c, is_delete c = false) this indexKey
                documents language (world probed) (λ _ _, eq_refl)
                (λ _ _, eq_refl)) as Hwc.
  fold write in Hwc.
  pose proof (addDocuments_calls this indexKey documents language (world probed))
    as Hshape.
  simpl in Hshape. fold write in Hshape.
  destruct (result write) as [[]|e] eqn:Hwrite.
  2:{ exists (calls probed ++ calls write), []. rewrite app_nil_r.
      split; [done|]. split; [by apply Forall_app|by left]. }
  rewrite calls_bind.
  destruct (0 <? length ids)%nat eqn:Hsome.
  - exists (calls probed ++ calls write),
      [DeleteDocuments (getLanguageIndexKey this indexKey language) ids].
    split.
    { unfold deleteDocuments. rewrite invoke_run. simpl.
      destruct (index_deleteDocuments _ _ _ _) as [[[]|?] ?]; simpl;
        by rewrite ?app_nil_r, <- ?app_assoc. }
    split; [by apply Forall_app|]. right.
    destruct (result (getTransformedDocuments _ _ _ _ _)) as [out|e] eqn:Hout.
    + destruct Hshape as (physicalKey & Hcalls & _).
      exists ids, physicalKey, out, existing.
      split; [done|]. split; [by destruct ids|].
      split; [|done]. rewrite Hcalls, !app_assoc. apply last_snoc.
    + destruct Hshape as [Hthrew _]. congruence.
  - exists (calls probed ++ calls write), []. simpl. rewrite !app_nil_r.
    split; [done|]. split; [by apply Forall_app|by left].
Qed.

(** X8. In a single-index sync a delete, if there is one, is the last call
    and comes right after the write to the engine; it goes to
    [getLanguageIndexKey(indexKey, language)], names at least one identity,
    only identities the probe reported, and none of a fetched document. *)
Theorem sync_deletes_last this input w :
  ∃ before deletes,
    calls (syncDocumentsStep this input w) = before ++ deletes
    ∧ Forall (λ c, is_delete c = false) before
    ∧ (deletes = []
       ∨ ∃ ids physicalKey written,
           deletes = [DeleteDocuments
                        (getLanguageIndexKey this (indexKey input) (language input))
                        ids]
           ∧ ids ≠ []
           ∧ last before = Some (AddDocuments physicalKey written)
           ∧ ∀ fetched,
               result (fetchDocuments this (indexKey input)
                         (fetchOptions (filters input) (limit input)
                            (offset input) (language input)) w)
                 = Returned fetched →
               Forall (λ id, id ∉ documentIdsOf fetched) ids
               ∧ ∃ existing,
                   result (probe this (indexKey input) (language input)
                             (documentIdsOf fetched)
                             (world (fetchDocuments this (indexKey input)
                                       (fetchOptions (filters input) (limit input)
                                          (offset input) (language input)) w)))
                   = Returned existing
                   ∧ Forall (λ id, id ∈ existing) ids).
Proof.
  rewrite syncDocumentsStep_reconcile.
  destruct (indexConfigOf this (indexKey input)) as [indexConfig|].
  2:{ exists [], []. split; [done|]. split; [constructor|by left]. }
  destruct (disabled indexConfig).
  { exists [], []. split; [done|]. split; [constructor|by left]. }
  rewrite calls_bind.
  set (options := fetchOptions _ _ _ _).
  pose proof (Forall_calls_fetchDocuments (λ c, is_delete c = false) this
                (indexKey input) options w (λ _ _, eq_refl) (λ _, eq_refl)) as Hfc.
  set (fetched := fetchDocuments this (indexKey input) options w) in *.
  destruct (result fetched) as [documents|e] eqn:Hfetched.
  2:{ exists (calls fetched), []. rewrite app_nil_r.
      split; [done|]. split; [done|by left]. }
  destruct (length documents =? 0)%nat.
  { exists (calls fetched), []. simpl. rewrite !app_nil_r.
    split; [done|]. split; [done|by left]. }
  destruct (reconcile_calls this (indexKey input) (language input) documents
              (world fetched))
    as (before & deletes & Hcalls & Hbefore & Hdeletes).
  exists (calls fetched ++ before), deletes.
  split; [by rewrite Hcalls, app_assoc|]. split; [by apply Forall_app|].
  destruct Hdeletes as [->|(ids & physicalKey & written & existing
                            & -> & Hsome & Hlast & Hprobe & ->)]; [by left|].
  right. exists (documentsToDeleteOf existing (documentIdsOf documents)),
    physicalKey, written.
  split; [done|]. split; [done|]. split.
  { rewrite last_app, Hlast. done. }
  intros ? [= <-]. split; [apply documentsToDeleteOf_fresh|].
  exists existing. split; [done|apply documentsToDeleteOf_reported].
Qed.

(** X9. What a single-index sync returns is what it fetched: [documents] is
    the fetched list, [added] its length, and [deleted] is zero when nothing
    was fetched. *)
Theorem sync_returns_what_it_fetched this input w r fetched :
  result (syncDocumentsStep this input w) = Returned r →
  result (fetchDocuments this (indexKey input)
            (fetchOptions (filters input) (limit input) (offset input)
               (language input)) w) = Returned fetched →
  documents r = fetched
  ∧ added r = length fetched
  ∧ (fetched = [] → deleted r = 0).
Proof.
  rewrite syncDocumentsStep_reconcile. intros Hr Hfetch.
  assert (Hnone : r = noDocuments → fetched = [] →
    documents r = fetched ∧ added r = length fetched ∧ (fetched = [] → deleted r = 0)).
  { by intros -> ->. }
  destruct (indexConfigOf this (indexKey input)) as [indexConfig|] eqn:Hcfg.
  - destruct (disabled indexConfig) eqn:Hoff.
    + rewrite fetchDocuments_unconfigured in Hfetch by (by rewrite Hcfg).
      injection Hr as <-. injection Hfetch as <-. by apply Hnone.
    + rewrite result_bind, Hfetch in Hr.
      destruct (length fetched =? 0)%nat eqn:Hlen.
      * apply length_eqb_nil in Hlen. injection Hr as <-. by apply Hnone.
      * apply reconcile_result in Hr as (existing & _ & ->). simpl.
        repeat split. intros ->. done.
  - rewrite fetchDocuments_unconfigured in Hfetch by (by rewrite Hcfg).
    injection Hr as <-. injection Hfetch as <-. by apply Hnone.
Qed.

(** X10. When no fetcher resolves, or the fetch yields no document, the
    single-index sync returns [{documents: [], added: 0, deleted: 0}] and
    makes no call besides the fetch: the search engine is not contacted. *)
Theorem sync_without_documents this input w :
  let fetched :=
    fetchDocuments this (indexKey input)
      (fetchOptions (filters input) (limit input) (offset input)
         (language input)) w in
  result fetched = Returned [] →
  result (syncDocumentsStep this input w) = Returned noDocuments
  ∧ calls (syncDocumentsStep this input w) = calls fetched
  ∧ world (syncDocumentsStep this input w) = world fetched
  ∧ omap addressed (calls (syncDocumentsStep this input w)) = [].
Proof.
  intros fetched Hfetch.
  assert (Hquiet : omap addressed (calls fetched) = []).
  { pose proof (Forall_calls_fetchDocuments (λ c, addressed c = None) this
                  (indexKey input)
                  (fetchOptions (filters input) (limit input) (offset input)
                     (language input)) w (λ _ _, eq_refl) (λ _, eq_refl)) as Hfc.
    fold fetched in Hfc.
    induction Hfc as [|c cs Hc _ IH]; [done|]. simpl. by rewrite Hc. }
  assert (Hsame : calls (syncDocumentsStep this input w) = calls fetched
                  ∧ result (syncDocumentsStep this input w) = Returned noDocuments
                  ∧ world (syncDocumentsStep this input w) = world fetched).
  { rewrite syncDocumentsStep_reconcile.
    destruct (indexConfigOf this (indexKey input)) as [indexConfig|] eqn:Hcfg.
    - destruct (disabled indexConfig) eqn:Hoff.
      + unfold fetched.
        by rewrite fetchDocuments_unconfigured by (by rewrite Hcfg).
      + rewrite calls_bind, result_bind, world_bind. fold fetched.
        rewrite Hfetch. simpl. by rewrite app_nil_r.
    - unfold fetched.
      by rewrite fetchDocuments_unconfigured by (by rewrite Hcfg). }
  destruct Hsame as (Hcalls & Hres & Hworld).
  by rewrite Hcalls.
Qed.

(** X11. Documents without [id] and [_id] are written all the same: when
    none of the fetched documents carries an identity, the sync makes no
    probe and no delete, writes the documents right after the fetch, and
    reports [deleted = 0]. *)
Theorem sync_without_identities this input w fetched :
  let fetching :=
    fetchDocuments this (indexKey input)
      (fetchOptions (filters input) (limit input) (offset input)
         (language input)) w in
  result fetching = Returned fetched →
  fetched ≠ [] →
  documentIdsOf fetched = [] →
  calls (syncDocumentsStep this input w)
  = calls fetching
    ++ calls (addDocuments this (indexKey input) fetched (language input)
                (world fetching))
  ∧ ∀ r, result (syncDocumentsStep this input w) = Returned r → deleted r = 0.
Proof.
  intros fetching Hfetch Hsome Hids. rewrite syncDocumentsStep_reconcile.
  destruct (indexConfigOf this (indexKey input)) as [indexConfig|] eqn:Hcfg.
  2:{ unfold fetching in Hfetch.
      rewrite fetchDocuments_unconfigured in Hfetch by (by rewrite Hcfg).
      by injection Hfetch as <-. }
  destruct (disabled indexConfig) eqn:Hoff.
  { unfold fetching in Hfetch.
    rewrite fetchDocuments_unconfigured in Hfetch by (by rewrite Hcfg).
    by injection Hfetch as <-. }
  rewrite calls_bind, result_bind. fold fetching. rewrite Hfetch.
  destruct (length fetched =? 0)%nat eqn:Hlen.
  { by apply length_eqb_nil in Hlen. }
  unfold reconcile. cbv zeta. rewrite Hids.
  assert (Hprobe : ∀ w', probe this (indexKey input) (language input) [] w'
                         = ret [] w') by done.
  rewrite calls_bind, result_bind, !Hprobe. cbn [ret result calls world].
  rewrite calls_bind, result_bind.
  destruct (result (addDocuments _ _ _ _ _)); simpl.
  - split; [by rewrite !app_nil_r|]. by intros r [= <-].
  - split; [done|]. by intros r [=].
Qed.
End SyncShape.

Lemma sync_returns_what_it_fetched_witness :
  let input :=
    {| indexKey := "products"; filters := None; limit := None; offset := None;
       language := Some "fr" |} in
  result (syncDocumentsStep Shop.bilingual input tt)
  = Returned {| documents := [Shop.product "p1"]; added := 1; deleted := 0 |}
  ∧ documents {| documents := [Shop.product "p1"]; added := 1; deleted := 0 |}
    = [Shop.product "p1"].
Proof.
  intros input. split; [reflexivity|].
  apply (sync_returns_what_it_fetched Shop.bilingual input tt
           {| documents := [Shop.product "p1"]; added := 1; deleted := 0 |}
           [Shop.product "p1"]); reflexivity.
Defined.

Lemma sync_without_documents_witness :
  let input :=
    {| indexKey := "a"; filters := None; limit := None; offset := None;
       language := Some "c" |} in
  result (syncDocumentsStep Shop.underscored input tt) = Returned noDocuments
  ∧ calls (syncDocumentsStep Shop.underscored input tt)
    = [Fetch "a" (fetchOptions None None None (Some "c"))].
Proof.
  intros input.
  destruct (sync_without_documents Shop.underscored input tt eq_refl)
    as (Hres & Hcalls & _).
  split; [exact Hres|exact Hcalls].
Defined.

Lemma sync_without_identities_witness :
  calls (syncDocumentsStep Depot.anonymous Depot.notes [])
  = [ Fetch "notes" (fetchOptions None None None None);
      AddDocuments "notes" Depot.untitled ]
  ∧ ∀ r, result (syncDocumentsStep Depot.anonymous Depot.notes []) = Returned r →
         deleted r = 0.
Proof.
  apply (sync_without_identities Depot.anonymous Depot.notes [] Depot.untitled);
    [reflexivity|discriminate|reflexivity].
Defined.

(** ** The accounts of a bulk sync *)

Section BulkAccounts.
Context {W : Type}.
Implicit Types (this : MeiliSearchService W).

Lemma fold_tally_documents (entries : list IndexSyncResult) totals :
  totalDocuments (fold_left tally entries totals)
  = totalDocuments totals
    + sum_list (map (λ r, length (isr_documents r)) entries).
Proof.
  revert totals. induction entries as [|r entries IH]; intros totals; simpl.
  - lia.
  - rewrite IH. simpl. lia.
Qed.

Lemma syncDocumentsStep_added this input w r :
  result (syncDocumentsStep this input w) = Returned r →
  added r = length (documents r).
Proof.
  rewrite syncDocumentsStep_reconcile.
  destruct (indexConfigOf this (indexKey input)) as [indexConfig|];
    [|by intros [= <-]].
  destruct (disabled indexConfig); [by intros [= <-]|].
  rewrite result_bind.
  destruct (result (fetchDocuments _ _ _ _)) as [fetched|]; [|done].
  destruct (length fetched =? 0)%nat; [by intros [= <-]|].
  by intros (existing & _ & ->)%reconcile_result.
Qed.

(** A bulk sync returns the totals over one entry per descriptor. *)
Lemma bulkSyncDocumentsStep_entries this indexes filters limit offset w :
  ∃ entries,
    result (bulkSyncDocumentsStep this indexes filters limit offset w)
      = Returned (totalsOf indexes entries)
    ∧ length entries = length indexes
    ∧ ∀ i indexInfo,
        indexes !! i = Some indexInfo →
        ∃ o, entries !! i = Some (entryOf indexInfo o)
             ∧ ∀ r, o = Returned r → added r = length (documents r).
Proof.
  destruct (for_each_syncIndex this filters limit offset indexes w)
    as (entries & Hres & Hlen & Hentries).
  exists entries. split.
  { unfold bulkSyncDocumentsStep. by rewrite result_bind, Hres. }
  split; [done|]. intros i indexInfo Hi. eexists. split; [by apply Hentries|].
  intros r Hr. by eapply syncDocumentsStep_added.
Qed.

(** X12. A bulk sync never throws. Its totals add up: one entry per
    descriptor, [totalProcessed = totalSuccessful + totalFailed],
    [totalDocuments = totalAdded], [totalAdded] and [totalDeleted] are the
    sums over the entries; a failed entry counts for nothing and carries an
    error message, a successful one carries none. *)
Theorem bulk_sync_accounts this indexes filters limit offset w :
  ∃ out,
    result (bulkSyncDocumentsStep this indexes filters limit offset w)
      = Returned out
    ∧ length (results out) = length indexes
    ∧ totalProcessed out = length indexes
    ∧ totalSuccessful out + totalFailed out = totalProcessed out
    ∧ totalDocuments out = totalAdded out
    ∧ totalAdded out = sum_list (map isr_added (results out))
    ∧ totalDeleted out = sum_list (map isr_deleted (results out))
    ∧ Forall (λ r, if success r then error r = None
                   else isr_documents r = [] ∧ isr_added r = 0
                        ∧ isr_deleted r = 0 ∧ is_Some (error r))
        (results out).
Proof.
  destruct (bulkSyncDocumentsStep_entries this indexes filters limit offset w)
    as (entries & Hres & Hlen & Hentries).
  exists (totalsOf indexes entries). split; [done|].
  assert (Hshape : Forall (λ r, isr_added r = length (isr_documents r)
                                ∧ if success r then error r = None
                                  else isr_documents r = [] ∧ isr_added r = 0
                                       ∧ isr_deleted r = 0 ∧ is_Some (error r))
                     entries).
  { apply Forall_lookup. intros i r Hr.
    destruct (indexes !! i) as [indexInfo|] eqn:Hi.
    - destruct (Hentries i indexInfo Hi) as (o & Ho & Hadded).
      rewrite Ho in Hr. injection Hr as <-.
      destruct o as [res|e]; simpl; [by split; [apply Hadded|]|].
      by repeat split.
    - apply lookup_ge_None in Hi. apply lookup_lt_Some in Hr. lia. }
  unfold totalsOf.
  pose proof (fold_tally entries
                {| results := entries; totalProcessed := length indexes;
                   totalSuccessful := 0; totalFailed := 0; totalDocuments := 0;
                   totalAdded := 0; totalDeleted := 0 |})
    as (Hresults & Hprocessed & Hok & Hko & Hadded & Hdeleted).
  pose proof (fold_tally_documents entries
                {| results := entries; totalProcessed := length indexes;
                   totalSuccessful := 0; totalFailed := 0; totalDocuments := 0;
                   totalAdded := 0; totalDeleted := 0 |}) as Hdocuments.
  simpl in *.
  rewrite Hresults, Hprocessed, Hok, Hko, Hadded, Hdeleted, Hdocuments.
  split; [done|]. split; [done|]. split.
  { rewrite <- Hlen. clear. induction entries as [|r entries IH]; simpl; [done|].
    destruct (success r); simpl; lia. }
  split.
  { clear -Hshape. induction Hshape as [|r entries [Hr _] _ IH]; simpl; [done|].
    rewrite IH, Hr. done. }
  split; [done|]. split; [done|].
  eapply Forall_impl; [exact Hshape|]. by intros r [_ Hr].
Qed.

(** X13. The entries of a bulk sync come in the order of the descriptors,
    each with the index key and the language of its descriptor. *)
Theorem bulk_sync_entries_follow_descriptors this indexes filters limit offset w :
  ∃ out,
    result (bulkSyncDocumentsStep this indexes filters limit offset w)
      = Returned out
    ∧ map (λ r, (isr_indexKey r, isr_language r)) (results out)
      = map (λ d, (iwf_indexKey d, iwf_language d)) indexes.
Proof.
  destruct (bulkSyncDocumentsStep_entries this indexes filters limit offset w)
    as (entries & Hres & Hlen & Hentries).
  exists (totalsOf indexes entries). split; [done|].
  destruct (fold_tally entries
              {| results := entries; totalProcessed := length indexes;
                 totalSuccessful := 0; totalFailed := 0; totalDocuments := 0;
                 totalAdded := 0; totalDeleted := 0 |}) as (Hresults & _).
  unfold totalsOf. rewrite Hresults. simpl. clear Hres Hresults.
  revert entries Hlen Hentries.
  induction indexes as [|indexInfo indexes IH]; intros [|r entries] Hlen Hentries;
    simpl in *; try done.
  destruct (Hentries 0 indexInfo eq_refl) as (o & [= ->] & _).
  f_equal; [by destruct o|].
  apply IH; [lia|]. intros i d Hd. apply (Hentries (S i) d Hd).
Qed.

Lemma filter_no_keys (l : list IndexWithFetcher) :
  List.filter (λ index, bool_decide (iwf_indexKey index ∈ @nil string)) l = [].
Proof.
  induction l as [|d l IH]; [done|].
  cbn [List.filter]. case_bool_decide as Hin; [by apply elem_of_nil in Hin|].
  exact IH.
Qed.

(** X14. The bulk workflow never throws and only syncs indexes that are
    configured, not disabled, have a fetcher of their own and, when index
    keys are given, are among them; with an empty list of index keys it
    syncs nothing and makes no call. *)
Theorem bulk_workflow_scope this filters limit offset language indexKeys w :
  let run :=
    bulkSyncDocumentsWorkflow this filters limit offset language indexKeys w in
  ∃ out,
    result run = Returned out
    ∧ Forall
        (λ r, ∃ entry,
           entry ∈ settings (config_ this)
           ∧ entry.1 = isr_indexKey r
           ∧ enabled entry.2 ≠ Some false
           ∧ is_Some (fetcher entry.2)
           ∧ ∀ keys, indexKeys = Some keys → isr_indexKey r ∈ keys)
        (results out)
    ∧ (indexKeys = Some [] → totalProcessed out = 0 ∧ calls run = []).
Proof.
  intros run. unfold run, bulkSyncDocumentsWorkflow. cbv zeta.
  set (indexes := filterIndexesStep _ indexKeys).
  destruct (bulkSyncDocumentsStep_entries this indexes filters limit offset w)
    as (entries & Hres & Hlen & Hentries).
  exists (totalsOf indexes entries). split; [done|].
  destruct (fold_tally entries
              {| results := entries; totalProcessed := length indexes;
                 totalSuccessful := 0; totalFailed := 0; totalDocuments := 0;
                 totalAdded := 0; totalDeleted := 0 |}) as (Hresults & Hprocessed & _).
  unfold totalsOf. rewrite Hresults, Hprocessed. simpl. split.
  - apply Forall_lookup. intros i r Hr.
    destruct (indexes !! i) as [indexInfo|] eqn:Hi.
    2:{ apply lookup_ge_None in Hi. apply lookup_lt_Some in Hr. lia. }
    destruct (Hentries i indexInfo Hi) as (o & Ho & _).
    rewrite Ho in Hr. injection Hr as <-.
    assert (isr_indexKey (entryOf indexInfo o) = iwf_indexKey indexInfo) as ->
      by (by destruct o).
    apply list_elem_of_lookup_2 in Hi.
    assert (indexInfo ∈ getIndexesWithFetchersStep this language
            ∧ ∀ keys, indexKeys = Some keys → iwf_indexKey indexInfo ∈ keys)
      as [Hregistry Hkeys].
    { unfold indexes, filterIndexesStep in Hi.
      destruct indexKeys as [keys|]; [|done].
      apply list_elem_of_In, filter_In in Hi as [Hi Hkey].
      split; [by apply list_elem_of_In|].
      intros ? [= <-]. by apply bool_decide_eq_true in Hkey. }
    apply registry_elem in Hregistry
      as (entry & Hentry & Hsurvives & Hkey & _).
    unfold survives, disabled in Hsurvives.
    apply andb_true_iff in Hsurvives as [Hon Hfetcher].
    apply negb_true_iff, bool_decide_eq_false in Hon.
    apply bool_decide_eq_true in Hfetcher.
    exists entry. by repeat split.
  - intros ->. unfold indexes, filterIndexesStep.
    rewrite filter_no_keys.
    done.
Qed.
End BulkAccounts.

(** ** The batch driver, window after window *)

Section BatchWindows.
Context {W : Type} (rejection : thrown → thrown).
Implicit Types (this : MeiliSearchService W).

(** A turn of the loop whose sync throws. *)
Lemma batchLoop_throws this fuel key wanted batchSize currentOffset
    totalAdded totalDeleted w e :
  let input :=
    {| indexKey := key; filters := wanted; limit := Some batchSize;
       offset := Some currentOffset; language := None |} in
  result (syncDocumentsStep this input w) = Threw e →
  let run :=
    batchLoop rejection this (S fuel) key wanted batchSize currentOffset
      totalAdded totalDeleted w in
  result run = Threw (rejection e) ∧ workflowRuns run = [input].
Proof.
  intros input Hturn run. subst run. unfold workflowRuns.
  cbn [batchLoop]. fold input. rewrite result_bind, calls_bind.
  assert (result (syncDocumentsWorkflow rejection this input w)
          = Threw (rejection e)) as ->
    by (by rewrite (result_syncDocumentsWorkflow rejection), Hturn).
  split; [done|]. apply startedBy_syncDocumentsWorkflow.
Qed.

Lemma windows_shift (f : nat → SyncDocumentsStepInput) (n : nat) :
  map f (seq 0 (S n)) = f 0 :: map (λ i, f (S i)) (seq 0 n).
Proof. simpl. f_equal. rewrite <- seq_shift, map_map. done. Qed.

(** The windows the loop syncs follow one another without gap or overlap. *)
Lemma batchLoop_windows this fuel key wanted batchSize currentOffset
    totalAdded totalDeleted w :
  let run :=
    batchLoop rejection this fuel key wanted batchSize currentOffset
      totalAdded totalDeleted w in
  workflowRuns run
  = map (λ i, {| indexKey := key; filters := wanted; limit := Some batchSize;
                 offset := Some (currentOffset + Z.of_nat i * batchSize)%Z;
                 language := None |})
      (seq 0 (length (workflowRuns run)))
  ∧ (length (workflowRuns run) ≤ fuel)%nat
  ∧ (result run = Returned OutOfFuel → length (workflowRuns run) = fuel).
Proof.
  revert currentOffset totalAdded totalDeleted w.
  induction fuel as [|fuel IH]; intros currentOffset totalAdded totalDeleted w.
  { by repeat split. }
  set (input := {| indexKey := key; filters := wanted; limit := Some batchSize;
                   offset := Some currentOffset; language := None |}).
  assert (Hfirst : ∀ rest : list SyncDocumentsStepInput,
    rest = map (λ i, {| indexKey := key; filters := wanted;
                        limit := Some batchSize;
                        offset := Some (currentOffset + batchSize
                                        + Z.of_nat i * batchSize)%Z;
                        language := None |}) (seq 0 (length rest)) →
    input :: rest
    = map (λ i, {| indexKey := key; filters := wanted; limit := Some batchSize;
                   offset := Some (currentOffset + Z.of_nat i * batchSize)%Z;
                   language := None |}) (seq 0 (length (input :: rest)))).
  { intros rest Hrest. cbn [length]. rewrite windows_shift. f_equal.
    - unfold input. do 2 f_equal. lia.
    - rewrite Hrest at 1. apply map_ext. intros i. do 2 f_equal. lia. }
  destruct (result (syncDocumentsStep this input w)) as [r|e] eqn:Hturn.
  - pose proof (batchLoop_turn rejection this fuel key wanted batchSize currentOffset
                  totalAdded totalDeleted w r Hturn) as Hloop.
    cbv zeta in Hloop. fold input in Hloop.
    destruct (Z.of_nat (length (documents r)) <? batchSize)%Z.
    + destruct Hloop as [Hres Hruns]. cbv zeta. rewrite Hres, Hruns.
      split; [by apply (Hfirst [])|]. split; [simpl; lia|done].
    + destruct Hloop as [Hres Hruns]. cbv zeta. rewrite Hres, Hruns.
      destruct (IH (currentOffset + batchSize)%Z (totalAdded + added r)
                  (totalDeleted + deleted r)
                  (world (syncDocumentsStep this input w)))
        as (Hwindows & Hbound & Hfuel).
      split; [by apply Hfirst|]. split; [simpl; lia|].
      intros Hout. simpl. f_equal. by apply Hfuel.
  - destruct (batchLoop_throws this fuel key wanted batchSize currentOffset
                totalAdded totalDeleted w e Hturn) as [Hres Hruns].
    cbv zeta in Hres, Hruns. fold input in Hruns.
    cbv zeta. rewrite Hres, Hruns.
    split; [by apply (Hfirst [])|]. split; [simpl; lia|done].
Qed.

(** A loop whose windows are never short uses up every iteration. *)
Lemma batchLoop_exhausts this fuel key wanted batchSize currentOffset
    totalAdded totalDeleted w :
  (batchSize ≤ 0)%Z →
  (∀ limit offset w',
      ∃ r, result (syncDocumentsStep this
                     {| indexKey := key; filters := wanted;
                        limit := limit; offset := offset; language := None |} w')
           = Returned r) →
  let run :=
    batchLoop rejection this fuel key wanted batchSize currentOffset
      totalAdded totalDeleted w in
  result run = Returned OutOfFuel ∧ length (workflowRuns run) = fuel.
Proof.
  intros Hle Hsync. cbv zeta.
  revert currentOffset totalAdded totalDeleted w.
  induction fuel as [|fuel IH]; intros currentOffset totalAdded totalDeleted w.
  { done. }
  destruct (Hsync (Some batchSize) (Some currentOffset) w) as [r Hr].
  destruct (batchLoop_continue rejection this fuel key wanted batchSize currentOffset
              totalAdded totalDeleted w r Hr) as [Hres Hruns]; [lia|].
  rewrite Hres, Hruns.
  destruct (IH (currentOffset + batchSize)%Z (totalAdded + added r)
              (totalDeleted + deleted r)
              (world (syncDocumentsStep this
                        {| indexKey := key; filters := wanted;
                           limit := Some batchSize;
                           offset := Some currentOffset;
                           language := None |} w))) as [Hout Hlen].
  split; [done|]. simpl. by rewrite Hlen.
Qed.

(** X15. Without an explicit limit the batch driver syncs windows of
    [batchSize] documents (100 when none is given) that follow one another
    without gap or overlap from the starting offset, never passes a
    language, and makes at most as many syncs as the loop is allowed
    iterations. *)
Theorem batch_driver_windows this fuel data w :
  jd_indexKey data ≠ "" →
  given_number (jd_limit data) = false →
  let batchSize := default 100%Z (jd_batchSize data) in
  let run := meilisearchIndexSyncJob rejection this fuel (Some data) w in
  workflowRuns run
  = map (λ i, {| indexKey := jd_indexKey data; filters := jd_filters data;
                 limit := Some batchSize;
                 offset := Some (numberOr (jd_offset data) 0
                                 + Z.of_nat i * batchSize)%Z;
                 language := None |})
      (seq 0 (length (workflowRuns run)))
  ∧ (length (workflowRuns run) ≤ fuel)%nat.
Proof.
  intros Hkey Hlimit batchSize run. subst run. unfold meilisearchIndexSyncJob.
  assert (String.eqb (jd_indexKey data) "" = false) as ->
    by (by apply String.eqb_neq).
  rewrite Hlimit.
  destruct (batchLoop_windows this fuel (jd_indexKey data) (jd_filters data)
              batchSize (numberOr (jd_offset data) 0) 0 0 w)
    as (Hwindows & Hbound & _).
  by split.
Qed.

(** X16. When the sync of a window throws, the batch driver does not
    catch it: the loop rejects with what the workflow run rejects with, the
    engine's rendering of the thrown value, and starts no further sync. *)
Theorem batch_driver_stops_on_failure this fuel key wanted batchSize
    currentOffset totalAdded totalDeleted w e :
  let input :=
    {| indexKey := key; filters := wanted; limit := Some batchSize;
       offset := Some currentOffset; language := None |} in
  result (syncDocumentsStep this input w) = Threw e →
  let run :=
    batchLoop rejection this (S fuel) key wanted batchSize currentOffset
      totalAdded totalDeleted w in
  result run = Threw (rejection e)
  ∧ workflowRuns run = [input]
  ∧ calls run = RunSyncWorkflow input :: calls (syncDocumentsStep this input w).
Proof.
  intros input Hturn run.
  destruct (batchLoop_throws this fuel key wanted batchSize currentOffset
              totalAdded totalDeleted w e Hturn) as [Hres Hruns].
  assert (Hrun : result (syncDocumentsWorkflow rejection this input w)
                 = Threw (rejection e))
    by (by rewrite (result_syncDocumentsWorkflow rejection), Hturn).
  split; [exact Hres|]. split; [exact Hruns|].
  subst run. cbn [batchLoop]. fold input. rewrite calls_bind, Hrun.
  done.
Qed.

(** X17. With a batch size of zero or less and no explicit limit, a window
    is never short: as long as the syncs return, the loop of the batch
    driver goes on, whatever number of iterations it is allowed. *)
Theorem batch_driver_never_ends this fuel data batchSize w :
  jd_indexKey data ≠ "" →
  given_number (jd_limit data) = false →
  jd_batchSize data = Some batchSize →
  (batchSize ≤ 0)%Z →
  (∀ limit offset w',
      ∃ r, result (syncDocumentsStep this
                     {| indexKey := jd_indexKey data; filters := jd_filters data;
                        limit := limit; offset := offset; language := None |} w')
           = Returned r) →
  let run := meilisearchIndexSyncJob rejection this fuel (Some data) w in
  result run = Returned OutOfFuel ∧ length (workflowRuns run) = fuel.
Proof.
  intros Hkey Hlimit Hsize Hle Hsync run. subst run.
  unfold meilisearchIndexSyncJob.
  assert (String.eqb (jd_indexKey data) "" = false) as ->
    by (by apply String.eqb_neq).
  rewrite Hlimit, Hsize.
  by apply batchLoop_exhausts.
Qed.

(** X18. Called without data or with an empty index key, the batch driver
    returns without throwing and without any call. *)
Theorem batch_driver_skips_without_key this fuel data w :
  from_option (λ d, jd_indexKey d = "") True data →
  meilisearchIndexSyncJob rejection this fuel data w = mkRun (Returned Skipped) w [].
Proof.
  intros Hkey. unfold meilisearchIndexSyncJob. destruct data as [data|]; [|done].
  simpl in Hkey. by rewrite Hkey.
Qed.

(** X19. The bulk index job never throws on account of an index: it
    returns the failures it warns about, one per failed entry of the bulk
    sync, each with an error message. *)
Theorem bulk_index_job_reports_failures this w :
  ∃ out,
    result (bulkSyncDocumentsWorkflow this None None None None None w)
      = Returned out
    ∧ result (meilisearchBulkIndexJob this w)
      = Returned (List.filter (λ r, negb (success r)) (results out))
    ∧ length (List.filter (λ r, negb (success r)) (results out))
      = totalFailed out
    ∧ calls (meilisearchBulkIndexJob this w)
      = calls (bulkSyncDocumentsWorkflow this None None None None None w).
Proof.
  unfold meilisearchBulkIndexJob.
  set (workflow := bulkSyncDocumentsWorkflow this None None None None None).
  destruct (bulkSyncDocumentsStep_entries this
              (filterIndexesStep (getIndexesWithFetchersStep this None) None)
              None None None w) as (entries & Hres & _).
  change (result (workflow w) = Returned
            (totalsOf (filterIndexesStep (getIndexesWithFetchersStep this None) None)
               entries)) in Hres.
  eexists. split; [exact Hres|].
  rewrite result_try_catch, calls_try_catch, result_bind, calls_bind, Hres.
  simpl. split; [done|]. split; [|by rewrite app_nil_r].
  destruct (totalsOf_counts (getIndexesWithFetchersStep this None) entries)
    as (Hresults & _ & _ & Hko).
  by rewrite Hko, Hresults.
Qed.
End BatchWindows.

Lemma batch_driver_windows_witness :
  workflowRuns
    (meilisearchIndexSyncJob Shop.rejection (Shop.paged 3) 5
       (Some (Shop.job None (Some 2%Z))) tt)
  = [Shop.windowInput 2 0; Shop.windowInput 2 2].
Proof.
  destruct (batch_driver_windows Shop.rejection (Shop.paged 3) 5 (Shop.job None (Some 2%Z)) tt)
    as [Hwindows _]; [discriminate|reflexivity|].
  rewrite Hwindows. reflexivity.
Defined.

Lemma batch_driver_stops_on_failure_witness :
  result (fetchDocuments Shop.outage "bad"
            (fetchOptions None (Some 100%Z) (Some 0%Z) None) tt)
  = Threw (ErrorObject "catalog unavailable")
  ∧ result (batchLoop Shop.rejection Shop.outage 5 "bad" None 100 0 0 0 tt)
    = Threw NonError
  ∧ length (workflowRuns
              (batchLoop Shop.rejection Shop.outage 5 "bad" None 100 0 0 0 tt))
    = 1.
Proof.
  split; [reflexivity|].
  destruct (batch_driver_stops_on_failure Shop.rejection Shop.outage 4 "bad"
              None 100 0 0 0 tt (ErrorObject "catalog unavailable") eq_refl)
    as (Hres & Hruns & _).
  split; [exact Hres|]. by rewrite Hruns.
Defined.

Lemma paged_sync_returns n input w :
  ∃ r, result (syncDocumentsStep (Shop.paged n) input w) = Returned r.
Proof.
  assert (∃ fetched,
    result (fetchDocuments (Shop.paged n) (indexKey input)
              (fetchOptions (filters input) (limit input) (offset input)
                 (language input)) w) = Returned fetched) as [fetched Hfetched].
  { unfold fetchDocuments, getDocumentFetcher, indexConfigOf.
    cbn -[String.eqb Shop.source window].
    destruct (String.eqb "products" (indexKey input)); by eexists. }
  destruct (syncDocumentsStep_returns (Shop.paged n) input w fetched Hfetched)
    as [deleted Hr].
  - apply writes_succeed_plain; [|done]. repeat constructor; done.
  - by apply deletes_succeed_plain.
  - by eexists.
Qed.

Lemma batch_driver_never_ends_witness :
  result (meilisearchIndexSyncJob Shop.rejection (Shop.paged 3) 7
            (Some (Shop.job None (Some 0%Z))) tt) = Returned OutOfFuel
  ∧ length (workflowRuns
              (meilisearchIndexSyncJob Shop.rejection (Shop.paged 3) 7
                 (Some (Shop.job None (Some 0%Z))) tt)) = 7.
Proof.
  apply (batch_driver_never_ends Shop.rejection (Shop.paged 3) 7 (Shop.job None (Some 0%Z)) 0%Z tt);
    [discriminate|reflexivity|reflexivity|lia|].
  intros limit offset w'. apply paged_sync_returns.
Defined.

Lemma batch_driver_skips_without_key_witness :
  meilisearchIndexSyncJob Shop.rejection Shop.bilingual 3
    (Some {| jd_indexKey := ""; jd_filters := None; jd_limit := Some 10%Z;
             jd_offset := None; jd_batchSize := None |}) tt
  = mkRun (Returned Skipped) tt [].
Proof.
  apply (batch_driver_skips_without_key Shop.rejection Shop.bilingual 3). reflexivity.
Defined.

(** ** Index management *)

Section Managing.
Context {W : Type}.
Implicit Types (this : MeiliSearchService W) (manager : IndexManager W).

(** The calls of [upsertIndex] and of the settings update that follows. *)
Lemma upsertIndex_calls this manager key requested w :
  (upsertIndex this manager key requested w).2 = []
  ∨ (upsertIndex this manager key requested w).2 = [GetIndex key]
  ∨ (upsertIndex this manager key requested w).2
    = [GetIndex key; CreateIndex key (default "id" (primaryKey requested))].
Proof.
  unfold upsertIndex.
  destruct (from_option disabled false (indexConfigOf this key)); [by left|].
  destruct (client_getIndex manager key w) as [[| |] w1]; simpl; auto.
  destruct (client_createIndex manager key _ w1); simpl; auto.
Qed.

Lemma upsertAndUpdate_calls this manager key requested w :
  let run := upsertAndUpdate this manager key requested w in
  let payload := default ∅ (indexSettings requested) in
  run.2 = (upsertIndex this manager key requested w).2
          ++ match (upsertIndex this manager key requested w).1.1 with
             | Returned _ => [UpdateIndexSettings key payload]
             | Threw _ => []
             end.
Proof.
  unfold upsertAndUpdate.
  destruct (upsertIndex this manager key requested w) as [[[[]|e] w1] calls1];
    simpl.
  - by destruct (index_updateSettings manager key _ w1).
  - by rewrite app_nil_r.
Qed.

Lemma upsertAndUpdate_managed this manager key requested w :
  Forall (λ c, managed c = key) (upsertAndUpdate this manager key requested w).2.
Proof.
  pose proof (upsertAndUpdate_calls this manager key requested w) as Hcalls.
  simpl in Hcalls. rewrite Hcalls. apply Forall_app. split.
  - destruct (upsertIndex_calls this manager key requested w) as [->| [->| ->]];
      repeat constructor.
  - destruct ((upsertIndex this manager key requested w).1.1);
      repeat constructor.
Qed.

Lemma updateEach_managed this manager key requested langs w :
  Forall (λ c, ∃ lang, lang ∈ langs
                       ∧ managed c = getLanguageIndexKey this key (Some lang))
    (updateEach this manager key requested langs w).2.
Proof.
  revert w. induction langs as [|lang rest IH]; intros w; simpl; [constructor|].
  pose proof (upsertAndUpdate_managed this manager
                (getLanguageIndexKey this key (Some lang)) requested w) as Hfirst.
  destruct (upsertAndUpdate this manager _ requested w) as [[o w1] calls1].
  specialize (IH w1).
  destruct (updateEach this manager key requested rest w1) as [[o' w2] calls2].
  simpl in *. apply Forall_app. split.
  - eapply Forall_impl; [exact Hfirst|]. intros c Hc. exists lang.
    split; [left|done].
  - eapply Forall_impl; [exact IH|]. intros c (l & Hl & Hc). exists l.
    split; [by right|done].
Qed.

(** X20. [updateSettings] manages only physical indexes that
    [getIndexesByType] lists for the type of the index. *)
Theorem updateSettings_within_listed_indexes this manager key requested w
    indexConfig type_ :
  indexConfigOf this key = Some indexConfig →
  type indexConfig = Some type_ →
  Forall (λ c, managed c ∈ getIndexesByType this type_)
    (updateSettings this manager key requested w).2.
Proof.
  intros Hconfig Htype. unfold updateSettings. rewrite Hconfig. simpl.
  destruct (disabled indexConfig) eqn:Henabled; [constructor|].
  assert (Hbase : key ∈ map fst
            (List.filter
               (λ entry, bool_decide (type entry.2 = Some type_)
                         && negb (disabled entry.2))
               (settings (config_ this)))).
  { apply assoc_Some in Hconfig.
    apply (list_elem_of_fmap_2' fst _ (key, indexConfig)); [|done].
    apply list_elem_of_In, filter_In. split; [by apply list_elem_of_In|].
    simpl. rewrite Henabled, bool_decide_eq_true_2; done. }
  assert (Hplain : Forall (λ c, managed c ∈ map fst
            (List.filter
               (λ entry, bool_decide (type entry.2 = Some type_)
                         && negb (disabled entry.2))
               (settings (config_ this))))
            (upsertAndUpdate this manager key requested w).2).
  { eapply Forall_impl; [apply upsertAndUpdate_managed|].
    by intros c ->. }
  unfold getIndexesByType. cbv zeta.
  destruct (i18n (config_ this)) as [i18nConfig|]; [|exact Hplain].
  case_bool_decide as Hstrategy; [|exact Hplain].
  eapply Forall_impl; [apply updateEach_managed|].
  intros c (lang & Hlang & ->).
  apply list_elem_of_In, in_flat_map. exists key.
  split; [by apply list_elem_of_In|].
  apply in_map_iff. exists lang. split; [done|]. by apply list_elem_of_In.
Qed.

(** X21. Under [separate-index] with languages that are not empty,
    [updateSettings] never touches the base index: every call addresses
    [indexKey_lang] for a configured language. *)
Theorem updateSettings_spares_base_index this manager key requested w
    i18nConfig :
  i18n (config_ this) = Some i18nConfig →
  strategy i18nConfig = separate_index →
  Forall (λ lang, lang ≠ "") (languages i18nConfig) →
  Forall (λ c, managed c ≠ key
               ∧ ∃ lang, lang ∈ languages i18nConfig
                         ∧ managed c = key +:+ "_" +:+ lang)
    (updateSettings this manager key requested w).2.
Proof.
  intros Hi18n Hstrategy Hlangs. unfold updateSettings.
  destruct (from_option disabled false (indexConfigOf this key)); [constructor|].
  rewrite Hi18n, bool_decide_eq_true_2 by done.
  eapply Forall_impl; [apply updateEach_managed|].
  intros c (lang & Hlang & ->).
  assert (Hgiven : lang ≠ "") by (by eapply Forall_forall in Hlangs).
  assert (Hkey : getLanguageIndexKey this key (Some lang) = key +:+ "_" +:+ lang).
  { unfold getLanguageIndexKey. rewrite Hi18n, Hstrategy. simpl.
    destruct lang; [done|]. done. }
  rewrite Hkey. split; [|by exists lang].
  intros Heq. apply (f_equal String.length) in Heq.
  rewrite !length_append in Heq. simpl in Heq. lia.
Qed.

(** X22. When creating an index never fails, [updateSettings] of an index
    that is not disabled sends the settings, or the empty settings when
    none are given, to every physical index it manages, whatever the
    lookups come to and whatever the other updates come to. *)
Theorem updateSettings_reaches_every_language this manager key requested w
    i18nConfig :
  i18n (config_ this) = Some i18nConfig →
  strategy i18nConfig = separate_index →
  from_option disabled false (indexConfigOf this key) = false →
  (∀ physicalKey pk w', (client_createIndex manager physicalKey pk w').1
                        = Returned tt) →
  ∀ lang, lang ∈ languages i18nConfig →
    UpdateIndexSettings (getLanguageIndexKey this key (Some lang))
      (default ∅ (indexSettings requested))
    ∈ (updateSettings this manager key requested w).2.
Proof.
  intros Hi18n Hstrategy Henabled Hcreate lang Hlang. unfold updateSettings.
  rewrite Henabled, Hi18n, bool_decide_eq_true_2 by done.
  revert w. induction (languages i18nConfig) as [|l rest IH]; intros w.
  { by apply elem_of_nil in Hlang. }
  simpl.
  pose proof (upsertAndUpdate_calls this manager
                (getLanguageIndexKey this key (Some l)) requested w) as Hfirst.
  assert (Hupsert : (upsertIndex this manager
                       (getLanguageIndexKey this key (Some l)) requested w).1.1
                    = Returned tt).
  { unfold upsertIndex.
    destruct (from_option disabled false
                (indexConfigOf this (getLanguageIndexKey this key (Some l))));
      [done|].
    destruct (client_getIndex manager _ w) as [[| |] w1]; simpl; try done.
    specialize (Hcreate (getLanguageIndexKey this key (Some l))
                  (default "id" (primaryKey requested)) w1).
    destruct (client_createIndex manager _ _ w1) as [created w2]. done. }
  simpl in Hfirst. rewrite Hupsert in Hfirst.
  destruct (upsertAndUpdate this manager _ requested w) as [[o w1] calls1].
  pose proof (λ H, IH H w1) as IH'.
  destruct (updateEach this manager key requested rest w1) as [[o' w2] calls2].
  simpl in *. apply elem_of_app.
  apply elem_of_cons in Hlang as [->|Hrest].
  - left. rewrite Hfirst. apply elem_of_app. right. by left.
  - right. by apply IH'.
Qed.

(** X23. [upsertIndex] creates an index only when the lookup answers
    [index_not_found], with the primary key [id] unless one is given; any
    other failure of the lookup is swallowed: it returns without creating
    anything. A disabled index is not even looked up. *)
Theorem upsertIndex_creates_when_missing this manager key requested w :
  let run := upsertIndex this manager key requested w in
  let found := (client_getIndex manager key w).1 in
  (∀ physicalKey pk, CreateIndex physicalKey pk ∈ run.2 →
     found = IndexNotFound ∧ physicalKey = key
     ∧ pk = default "id" (primaryKey requested)
     ∧ from_option disabled false (indexConfigOf this key) = false)
  ∧ (found ≠ IndexNotFound → run.1.1 = Returned tt)
  ∧ (from_option disabled false (indexConfigOf this key) = true →
     run = (Returned tt, w, []))
  ∧ (from_option disabled false (indexConfigOf this key) = false →
     found = IndexNotFound →
     run.2 = [GetIndex key; CreateIndex key (default "id" (primaryKey requested))]
     ∧ run.1.1 = (client_createIndex manager key
                    (default "id" (primaryKey requested))
                    (client_getIndex manager key w).2).1).
Proof.
  unfold upsertIndex.
  destruct (from_option disabled false (indexConfigOf this key)).
  { simpl. split; [intros ? ? H; by apply elem_of_nil in H|done]. }
  destruct (client_getIndex manager key w) as [[| |] w1]; simpl.
  - split; [|done]. intros physicalKey pk H.
    apply list_elem_of_singleton in H. discriminate.
  - destruct (client_createIndex manager key _ w1) as [created w2]. simpl.
    split; [|done]. intros physicalKey pk H.
    apply elem_of_cons in H as [H|H]; [discriminate|].
    apply list_elem_of_singleton in H. by injection H as -> ->.
  - split; [|done]. intros physicalKey pk H.
    apply list_elem_of_singleton in H. discriminate.
Qed.
End Managing.

Lemma updateSettings_within_listed_indexes_witness :
  getIndexesByType Depot.bilingual PRODUCTS = ["products_en"; "products_fr"]
  ∧ CreateIndex "products_fr" "id"
    ∈ (updateSettings Depot.bilingual Depot.manager "products"
         Depot.searchable ["products_en"]).2
  ∧ Forall (λ c, managed c ∈ getIndexesByType Depot.bilingual PRODUCTS)
      (updateSettings Depot.bilingual Depot.manager "products" Depot.searchable
         ["products_en"]).2.
Proof.
  split; [reflexivity|]. split; [do 3 right; left|].
  apply (updateSettings_within_listed_indexes Depot.bilingual Depot.manager
           "products" Depot.searchable ["products_en"] Depot.plain PRODUCTS);
    reflexivity.
Defined.

Lemma updateSettings_spares_base_index_witness :
  Forall (λ c, managed c ≠ "products"
               ∧ ∃ lang, lang ∈ ["en"; "fr"]
                         ∧ managed c = "products" +:+ "_" +:+ lang)
    (updateSettings Depot.bilingual Depot.manager "products" Depot.searchable
       []).2.
Proof.
  apply (updateSettings_spares_base_index Depot.bilingual Depot.manager
           "products" Depot.searchable []
           {| strategy := separate_index; languages := ["en"; "fr"];
              defaultLanguage := "en" |});
    [reflexivity|reflexivity|].
  repeat constructor; discriminate.
Defined.

Lemma updateSettings_reaches_every_language_witness :
  UpdateIndexSettings "products_fr" {[ "searchableAttributes" := VStr "title" ]}
  ∈ (updateSettings Depot.bilingual Depot.manager "products" Depot.searchable
       []).2.
Proof.
  refine (updateSettings_reaches_every_language Depot.bilingual Depot.manager
            "products" Depot.searchable []
            {| strategy := separate_index; languages := ["en"; "fr"];
               defaultLanguage := "en" |}
            eq_refl eq_refl eq_refl _ "fr" _).
  - done.
  - right. left.
Defined.
